(** * Strudel sample server: name sanitizer, tree renamer, catalog builder
      and request handler

    A shallow embedding of [server.py] and [strudel.py].  Python strings are
    sequences of Unicode code points; directories are finite sets of names;
    the catalog is an insertion-ordered dictionary. *)

From Stdlib Require Import ZArith NArith List Ascii String Lia Bool DecimalNat.
From stdpp Require Import base decidable list gmap sets sorting.

#[local] Set Warnings "-register-all,-abstract-large-number,-clear-no-such-hyp".

Local Open Scope N_scope.

(** ** Python strings *)

(** A Python [str] is a sequence of code points. *)
Abbreviation str := (list N) (only parsing).

(** ASCII literals, for readable examples. *)
Definition py (s : string) : str := map N_of_ascii (list_ascii_of_string s).

Definition dash : N := 45.
Definition dot : N := 46.
Definition slash : N := 47.

Definition is_dash (c : N) : bool := N.eqb c dash.

(** [str.isspace] for one code point, which is also what [\s] matches in a
    [str] pattern: the characters for which [Py_UNICODE_ISSPACE] holds. *)
Definition isspace (c : N) : bool :=
  ((9 <=? c) && (c <=? 13)) || ((28 <=? c) && (c <=? 32))
  || (c =? 133) || (c =? 160) || (c =? 5760)
  || ((8192 <=? c) && (c <=? 8202))
  || (c =? 8232) || (c =? 8233) || (c =? 8239) || (c =? 8287) || (c =? 12288).

Fixpoint lstrip (s : str) : str :=
  match s with
  | c :: r => if isspace c then lstrip r else s
  | [] => []
  end.

Definition rstrip (s : str) : str := reverse (lstrip (reverse s)).

(** [str.strip()] with no argument. *)
Definition strip (s : str) : str := rstrip (lstrip s).

(** ** [re.sub] for the two patterns of the source

    Both patterns have the shape [cls{n,}] (a character class repeated at
    least [n] times, greedy): [\s+] is [isspace{1,}], [-{2,}] is
    [is_dash{2,}].  Leftmost greedy matching of such a pattern matches
    exactly the maximal runs of [cls] characters of length at least [n];
    shorter runs are copied.  [run] is the run read so far. *)
Definition flush (n : nat) (repl run : str) : str :=
  match run with
  | [] => []
  | _ => if (n <=? length run)%nat then repl else run
  end.

Fixpoint re_sub_from (cls : N -> bool) (n : nat) (repl run s : str) : str :=
  match s with
  | [] => flush n repl run
  | c :: r =>
      if cls c then re_sub_from cls n repl (run ++ [c]) r
      else flush n repl run ++ c :: re_sub_from cls n repl [] r
  end.

Definition re_sub (cls : N -> bool) (n : nat) (repl s : str) : str :=
  re_sub_from cls n repl [] s.

(** ** [pathlib] *)

(** [s.split("/")]. *)
Fixpoint split_on (sep : N) (cur s : str) : list str :=
  match s with
  | [] => [cur]
  | c :: r => if c =? sep then cur :: split_on sep [] r
              else split_on sep (cur ++ [c]) r
  end.

Definition str_eqb (a b : str) : bool := bool_decide (a = b).

(** [Path(s).name]: the last component, empty components and ["."] being
    dropped when the path is parsed. *)
Definition path_name (s : str) : str :=
  List.last
    (List.filter (fun c => negb (str_eqb c [] || str_eqb c [dot]))
       (split_on slash [] s))
    [].

(** [name.rfind(".")]. *)
Fixpoint rfind (c : N) (s : str) : option nat :=
  match s with
  | [] => None
  | x :: r =>
      match rfind c r with
      | Some i => Some (S i)
      | None => if x =? c then Some 0%nat else None
      end
  end.

(** The test [0 < i < len(name) - 1] of [PurePath.suffix] and
    [PurePath.stem]. *)
Definition ext_index (name : str) : option nat :=
  match rfind dot name with
  | Some i => if ((0 <? i)%nat && (i <? length name - 1)%nat) then Some i else None
  | None => None
  end.

Definition name_suffix (name : str) : str :=
  match ext_index name with Some i => drop i name | None => [] end.

Definition name_stem (name : str) : str :=
  match ext_index name with Some i => take i name | None => name end.

Definition path_suffix (s : str) : str := name_suffix (path_name s).
Definition path_stem (s : str) : str := name_stem (path_name s).

(** ** The name sanitizer *)

Definition sanitize_stem (stem : str) : str :=
  re_sub is_dash 2 [dash] (re_sub isspace 1 [dash] (strip stem)).

Definition safe_audio_name (filename : str) : str :=
  sanitize_stem (path_stem filename) ++ path_suffix filename.

(** The sanitizer in the words of its description: every maximal run of
    characters of a class becomes one ['-'].  [inside] tells whether the
    previous character belonged to the run being replaced. *)
Fixpoint squeeze (cls : N -> bool) (inside : bool) (s : str) : str :=
  match s with
  | [] => []
  | c :: r =>
      if cls c then
        if inside then squeeze cls true r else dash :: squeeze cls true r
      else c :: squeeze cls false r
  end.

(** Every maximal run of whitespace of the stem replaced by ['-'], then
    every maximal run of ['-'] collapsed, extension kept: no stripping. *)
Definition described_sanitize (filename : str) : str :=
  squeeze is_dash false (squeeze isspace false (path_stem filename))
  ++ path_suffix filename.

(** ** Configuration *)

Definition IGNORE_DIRS_server : list str :=
  [py ".git"; py "node_modules"; py "__pycache__"; py ".venv"].
Definition ALLOW_EXTS : list str := [py ".wav"; py ".flac"; py ".ogg"].
Definition JSON_NAME : str := py "strudel.json".
Definition PORT : nat := 5432.

(** [str.lower()] restricted to what the membership test in [ALLOW_EXTS]
    can observe: the only code points whose lower-case form is one of the
    ASCII letters of [".wav"], [".flac"], [".ogg"] are those letters and
    their ASCII capitals. *)
Definition lower_char (c : N) : N :=
  if (65 <=? c) && (c <=? 90) then c + 32 else c.
Definition lower (s : str) : str := map lower_char s.

Definition mem (x : str) (l : list str) : bool := existsb (str_eqb x) l.

(** [src.suffix.lower() in ALLOW_EXTS]. *)
Definition allowed (fname : str) : bool := mem (lower (path_suffix fname)) ALLOW_EXTS.

(** [str(i)] for a non-negative integer. *)
Fixpoint uint_str (d : Decimal.uint) : str :=
  match d with
  | Decimal.Nil => []
  | Decimal.D0 r => 48 :: uint_str r
  | Decimal.D1 r => 49 :: uint_str r
  | Decimal.D2 r => 50 :: uint_str r
  | Decimal.D3 r => 51 :: uint_str r
  | Decimal.D4 r => 52 :: uint_str r
  | Decimal.D5 r => 53 :: uint_str r
  | Decimal.D6 r => 54 :: uint_str r
  | Decimal.D7 r => 55 :: uint_str r
  | Decimal.D8 r => 56 :: uint_str r
  | Decimal.D9 r => 57 :: uint_str r
  end.
Definition str_of_nat (n : nat) : str := uint_str (Nat.to_uint n).

(** ** The tree renamer, one directory

    A directory is the set of names that exist in it (files, sub-directories
    and anything else: [Path.exists] does not tell them apart); [files] is
    the listing [os.walk] took before the loop body runs. *)

Inductive outcome (A : Type) : Type :=
  | Done (a : A)
  | Raised (e : str).
Arguments Done {A} a.
Arguments Raised {A} e.

Definition exists_in (d : gset str) (n : str) : bool := bool_decide (n ∈ d).

(** [f"{base}-{i}{ext}"]. *)
Definition candidate (base ext : str) (i : nat) : str :=
  base ++ [dash] ++ str_of_nat i ++ ext.

(** The [while True] loop over [i]; [fuel] bounds the number of rounds. *)
Fixpoint find_free (fuel : nat) (d : gset str) (base ext : str) (i : nat)
  : option str :=
  match fuel with
  | O => None
  | S k =>
      let cand := candidate base ext i in
      if exists_in d cand then find_free k d base ext (S i) else Some cand
  end.

(** The destination chosen for one file: [None] when the file is skipped
    ([continue]), otherwise the free name; the loop gets one round more than
    the directory has names. *)
Definition destination (d : gset str) (fname : str) : option (option str) :=
  if negb (allowed fname) then Some None
  else
    let target_name := safe_audio_name fname in
    if str_eqb target_name fname then Some None
    else if exists_in d target_name then
      match find_free (S (size d)) d (path_stem target_name)
              (path_suffix target_name) 1 with
      | Some cand => Some (Some cand)
      | None => None
      end
    else Some (Some target_name).

(** [os.rename] fails on the sources the oracle [fails] names. *)
Section RenameDir.
Variable fails : str -> bool.

Definition os_error : str := py "OSError".

(** The body of [for fname in files]; the log holds the renames done.  A
    directory left behind by a raised error keeps the renames done so
    far.  [None] stands for a loop that did not end. *)
Fixpoint rename_dir (d : gset str) (files : list str)
  : option (gset str * list (str * str) * outcome unit) :=
  match files with
  | [] => Some (d, [], Done tt)
  | fname :: rest =>
      match destination d fname with
      | None => None
      | Some None => rename_dir d rest
      | Some (Some dst) =>
          if fails fname then Some (d, [], Raised os_error)
          else
            match rename_dir ({[dst]} ∪ (d ∖ {[fname]})) rest with
            | Some (d', log, r) => Some (d', (fname, dst) :: log, r)
            | None => None
            end
      end
  end.
End RenameDir.

(** The name a file of the listing has after the pass. *)
Fixpoint final_name (log : list (str * str)) (fname : str) : str :=
  match log with
  | [] => fname
  | (src, dst) :: rest => if str_eqb src fname then dst else final_name rest fname
  end.


Definition no_fail (_ : str) : bool := false.

(** ** Sorting strings

    [list.sort()] on [str] items orders them by code point,
    lexicographically.  The order is total and antisymmetric, so the sorted
    list does not depend on the algorithm. *)
Fixpoint str_leb (a b : str) : bool :=
  match a, b with
  | [], _ => true
  | _ :: _, [] => false
  | x :: a', y :: b' => (x <? y) || ((x =? y) && str_leb a' b')
  end.

Definition str_le (a b : str) : Prop := Is_true (str_leb a b).

Definition sort (l : list str) : list str := merge_sort str_le l.

(** ** JSON values and the insertion-ordered dictionary *)

Inductive json : Type :=
  | JNull
  | JBool (b : bool)
  | JInt (z : Z)
  | JFloat (repr : str)
  | JString (s : str)
  | JArray (items : list json)
  | JObject (members : list (str * json)).

Abbreviation dict := (list (str * json)) (only parsing).

Fixpoint dict_get (k : str) (d : dict) : option json :=
  match d with
  | [] => None
  | (k', v) :: r => if str_eqb k' k then Some v else dict_get k r
  end.

(** [d[k] = v]: an existing key keeps its place, a new one goes last. *)
Fixpoint dict_set (k : str) (v : json) (d : dict) : dict :=
  match d with
  | [] => [(k, v)]
  | (k', v') :: r =>
      if str_eqb k' k then (k', v) :: r else (k', v') :: dict_set k v r
  end.

Definition keys (d : dict) : list str := map fst d.

(** [data.setdefault(name, []).extend(items)]: a value that is not a list
    has no [extend]. *)
Definition setdefault_extend (data : dict) (name : str) (items : list str)
  : outcome dict :=
  match dict_get name data with
  | None => Done (dict_set name (JArray (map JString items)) data)
  | Some (JArray l) => Done (dict_set name (JArray (l ++ map JString items)) data)
  | Some _ => Raised (py "AttributeError")
  end.

(** ** The file tree *)

Abbreviation bytes := (list N) (only parsing).

(** Entries of a folder are in the order [os.scandir] lists them. *)
Inductive node : Type :=
  | File (content : bytes)
  | Folder (entries : list (str * node)).

Definition is_folder (x : node) : bool :=
  match x with Folder _ => true | File _ => false end.

Definition file_names (entries : list (str * node)) : list str :=
  map fst (List.filter (fun e => negb (is_folder (snd e))) entries).

Definition entry_names (entries : list (str * node)) : gset str :=
  list_to_set (map fst entries).

Definition starts_with_dot (d : str) : bool :=
  match d with c :: _ => c =? dot | [] => false end.

(** ["/".join(parts)]. *)
Fixpoint join (sep : N) (parts : list str) : str :=
  match parts with
  | [] => []
  | [p] => p
  | p :: rest => p ++ sep :: join sep rest
  end.

Section Tree.
Variable IGNORE_DIRS : list str.

(** [d.startswith(".") or d in IGNORE_DIRS]. *)
Definition pruned (d : str) : bool := starts_with_dot d || mem d IGNORE_DIRS.

(** [os.walk(ROOT, topdown=True)] with the pruning of [dirs] the loop body
    does: the visited directories, as paths relative to [ROOT], each with
    its listing of files. *)
Fixpoint walk (path : list str) (t : node) : list (list str * list str) :=
  match t with
  | File _ => []
  | Folder entries =>
      (path, file_names entries)
      :: (fix go (es : list (str * node)) : list (list str * list str) :=
            match es with
            | [] => []
            | (n, sub) :: rest =>
                (if is_folder sub && negb (pruned n)
                 then walk (path ++ [n]) sub else [])
                ++ go rest
            end) entries
  end.

(** ["/" + p.relative_to(ROOT).as_posix()]. *)
Definition file_entry (path : list str) (f : str) : str :=
  slash :: join slash (path ++ [f]).

(** The body of the loop of [generate_json] for one visited directory. *)
Definition visit (data : dict) (path : list str) (files : list str)
  : outcome dict :=
  match last path with
  | None => Done data
  | Some name =>
      if pruned name then Done data
      else
        match map (file_entry path) (List.filter allowed files) with
        | [] => Done data
        | items => setdefault_extend data name (sort items)
        end
  end.

Fixpoint visit_all (data : dict) (dirs : list (list str * list str))
  : outcome dict :=
  match dirs with
  | [] => Done data
  | (path, files) :: rest =>
      match visit data path files with
      | Done data' => visit_all data' rest
      | Raised e => Raised e
      end
  end.

Definition base_key : str := py "_base".

(** The dictionary [generate_json] builds, before it is written. *)
Definition catalog (base_url : str) (root : node) : outcome dict :=
  visit_all [(base_key, JString base_url)] (walk [] root).
End Tree.

(** A node reached from another by a path of entry names. *)
Inductive reach : node -> list str -> node -> Prop :=
  | reach_here (t : node) : reach t [] t
  | reach_down (es : list (str * node)) (n : str) (sub x : node) (p : list str) :
      (n, sub) ∈ es -> reach sub p x -> reach (Folder es) (n :: p) x.

Section Groups.
Variable IGNORE_DIRS : list str.

(** What one visited directory adds to a group. *)
Definition contribution (path files : list str) : list str :=
  sort (map (file_entry path) (List.filter allowed files)).

Definition part (key : str) (dir : list str * list str) : list str :=
  if bool_decide (last (fst dir) = Some key) && negb (pruned IGNORE_DIRS key)
  then contribution (fst dir) (snd dir) else [].

(** The groups in the words of the description: the base name of every
    walked directory that holds a qualifying file, the root under its own
    name. *)
Definition described_group_names (root_name : str) (root : node) : list str :=
  map (fun dir => default root_name (last (fst dir)))
    (List.filter (fun dir => existsb allowed (snd dir)) (walk IGNORE_DIRS [] root)).
End Groups.

(** The list a dictionary holds under a key, and the value a key has after
    [new] has been appended to its list. *)
Definition items_of (o : option json) : list json :=
  match o with Some (JArray l) => l | _ => [] end.

Definition extended (o : option json) (new : list str) : option json :=
  match new with
  | [] => o
  | _ => Some (JArray (items_of o ++ map JString new))
  end.

(** A catalog under construction: [_base] holds a string, every other key
    a list. *)
Definition groups_ok (b : str) (data : list (str * json)) : Prop :=
  dict_get base_key data = Some (JString b) /\
  forall key, key <> base_key ->
    dict_get key data = None \/ exists l, dict_get key data = Some (JArray l).

Section NoBase.
Variable IGNORE_DIRS : list str.

(** A path none of whose components is pruned from the walk. *)
Definition walked (path : list str) : Prop :=
  Forall (fun c => pruned IGNORE_DIRS c = false) path.

(** No walked directory named [_base] holds a qualifying file. *)
Definition no_base_group (root : node) : Prop :=
  forall path es,
    reach root path (Folder es) -> last path = Some base_key -> walked path ->
    List.filter allowed (file_names es) = [].
End NoBase.

(** The same, decided on the walk. *)
Definition no_base_groupb (IGNORE_DIRS : list str) (root : node) : bool :=
  forallb (fun dir => match part IGNORE_DIRS base_key dir with
                      | [] => true
                      | _ => false
                      end)
    (walk IGNORE_DIRS [] root).

(** Sample trees. *)
Definition nested_kicks : node :=
  Folder [(py "kicks",
           Folder [(py "z.wav", File []);
                   (py "kicks", Folder [(py "a.wav", File [])])])].

Definition root_with_file : node := Folder [(py "a.wav", File [])].

Definition localhost_url : str := py "http://localhost:5432/".

(** ** [json.dumps(data, ensure_ascii=False, separators=(",", ":"))] *)

Definition hex_digit (n : N) : N := if n <? 10 then 48 + n else 87 + n.

(** One character of a string literal: the quote, the backslash and the
    control characters are escaped, everything else is copied. *)
Definition escape_char (c : N) : str :=
  if c =? 34 then [92; 34]
  else if c =? 92 then [92; 92]
  else if c =? 8 then [92; 98]
  else if c =? 12 then [92; 102]
  else if c =? 10 then [92; 110]
  else if c =? 13 then [92; 114]
  else if c =? 9 then [92; 116]
  else if c <? 32 then [92; 117; 48; 48; hex_digit (c / 16); hex_digit (c mod 16)]
  else [c].

Definition encode_basestring (s : str) : str :=
  34 :: flat_map escape_char s ++ [34].

(** [str(z)] for an integer. *)
Definition str_of_Z (z : Z) : str :=
  if (z <? 0)%Z then dash :: str_of_nat (Z.to_nat (- z))
  else str_of_nat (Z.to_nat z).

Definition comma : N := 44.
Definition colon : N := 58.

(** A float is kept as the text [float.__repr__] gives. *)
Fixpoint dumps (v : json) : str :=
  match v with
  | JNull => py "null"
  | JBool true => py "true"
  | JBool false => py "false"
  | JInt z => str_of_Z z
  | JFloat repr => repr
  | JString s => encode_basestring s
  | JArray items => 91 :: join comma (map dumps items) ++ [93]
  | JObject members =>
      123 :: join comma
               (map (fun kv => encode_basestring (fst kv) ++ colon :: dumps (snd kv))
                  members)
          ++ [125]
  end.

(** The strings a value is made of: keys, string values, float texts. *)
Fixpoint texts (v : json) : list str :=
  match v with
  | JNull | JBool _ | JInt _ => []
  | JFloat repr => [repr]
  | JString s => [s]
  | JArray items => flat_map texts items
  | JObject members => flat_map (fun kv => fst kv :: texts (snd kv)) members
  end.

(** ** [str.encode("utf-8")]

    A lone surrogate cannot be encoded ([UnicodeEncodeError]). *)
Definition utf8_char (c : N) : option bytes :=
  if c <? 128 then Some [c]
  else if c <? 2048 then Some [192 + c / 64; 128 + c mod 64]
  else if c <? 65536 then
    if (55296 <=? c) && (c <=? 57343) then None
    else Some [224 + c / 4096; 128 + (c / 64) mod 64; 128 + c mod 64]
  else if c <? 1114112 then
    Some [240 + c / 262144; 128 + (c / 4096) mod 64;
          128 + (c / 64) mod 64; 128 + c mod 64]
  else None.

Fixpoint utf8_encode (s : str) : option bytes :=
  match s with
  | [] => Some []
  | c :: r =>
      match utf8_char c, utf8_encode r with
      | Some b, Some br => Some (b ++ br)
      | _, _ => None
      end
  end.

(** ** Writing the catalog file *)

(** The entry of a name in a folder. *)
Fixpoint find_entry (n : str) (es : list (str * node)) : option node :=
  match es with
  | [] => None
  | (n', x) :: r => if str_eqb n' n then Some x else find_entry n r
  end.

(** A file written under a name: an existing entry keeps its place. *)
Fixpoint put_entry (n : str) (x : node) (es : list (str * node))
  : list (str * node) :=
  match es with
  | [] => [(n, x)]
  | (n', x') :: r => if str_eqb n' n then (n', x) :: r else (n', x') :: put_entry n x r
  end.

Definition entries_of (t : node) : list (str * node) :=
  match t with Folder es => es | File _ => [] end.

Section Persist.
Variable IGNORE_DIRS : list str.
(** The operating system: whether writing the catalog file fails, and what
    a failed write leaves in the file. *)
Variable write_fails : bool.
Variable left_behind : str -> bytes.

(** [open(ROOT / JSON_NAME, "w", encoding="utf-8", newline="\n")] and
    [json.dump] into it: the text is written as it is, translated to
    UTF-8. *)
Definition write_text (text : str) : bytes * outcome unit :=
  if write_fails then (left_behind text, Raised (py "OSError"))
  else
    match utf8_encode text with
    | Some b => (b, Done tt)
    | None => (left_behind text, Raised (py "UnicodeEncodeError"))
    end.

Definition generate_json (base_url : str) (root : node) : node * outcome unit :=
  match catalog IGNORE_DIRS base_url root with
  | Raised e => (root, Raised e)
  | Done data =>
      match find_entry JSON_NAME (entries_of root) with
      | Some (Folder _) => (root, Raised (py "IsADirectoryError"))
      | _ =>
          let '(content, r) := write_text (dumps (JObject data)) in
          (Folder (put_entry JSON_NAME (File content) (entries_of root)), r)
      end
  end.
End Persist.

(** ** The tree renamer, whole tree *)

(** The files of a folder under the names a log of renames gives them. *)
Definition relabel (log : list (str * str)) (es : list (str * node))
  : list (str * node) :=
  map (fun e => if is_folder (snd e) then e else (final_name log (fst e), snd e)) es.

Section RenameTree.
Variable IGNORE_DIRS : list str.
(** [os.rename] fails in the directory and on the source the oracle names. *)
Variable fails : list str -> str -> bool.

(** [rename_files]: the files of a directory are renamed before the walk
    goes down into its sub-directories; a raised error ends the walk and
    leaves the tree as it is by then. *)
Fixpoint rename_files (path : list str) (t : node) : option (node * outcome unit) :=
  match t with
  | File c => Some (File c, Done tt)
  | Folder es =>
      match rename_dir (fails path) (entry_names es) (file_names es) with
      | None => None
      | Some (_, log, Raised e) => Some (Folder (relabel log es), Raised e)
      | Some (_, log, Done _) =>
          match
            (fix go (l : list (str * node))
               : option (list (str * node) * outcome unit) :=
               match l with
               | [] => Some ([], Done tt)
               | (n, sub) :: rest =>
                   if is_folder sub && negb (pruned IGNORE_DIRS n) then
                     match rename_files (path ++ [n]) sub with
                     | None => None
                     | Some (sub', Raised e) =>
                         Some ((n, sub') :: relabel log rest, Raised e)
                     | Some (sub', Done _) =>
                         match go rest with
                         | Some (rest', r) => Some ((n, sub') :: rest', r)
                         | None => None
                         end
                     end
                   else
                     match go rest with
                     | Some (rest', r) =>
                         Some ((if is_folder sub then n else final_name log n, sub)
                               :: rest', r)
                     | None => None
                     end
               end) es
          with
          | Some (es', r) => Some (Folder es', r)
          | None => None
          end
      end
  end.
End RenameTree.

(** ** The request handler *)

(** The files the server can see: the tree under [ROOT], and the regular
    files elsewhere, by absolute path. *)
Record world : Type := World {
  w_root : node;
  w_outside : list str -> option bytes
}.

Record request : Type := Request {
  req_path : str;
  req_host : option str
}.

Inductive response : Type :=
  | Ok200 (ctype : str) (body : bytes)
  | SendError (code : N) (message : str)
  | Fallback
  | Uncaught (e : str).

(** [s.startswith(p)]. *)
Fixpoint startswith (p s : str) : bool :=
  match p, s with
  | [], _ => true
  | _ :: _, [] => false
  | x :: p', y :: s' => (x =? y) && startswith p' s'
  end.

(** [s.lstrip("/")]. *)
Fixpoint lstrip_slash (s : str) : str :=
  match s with
  | c :: r => if c =? slash then lstrip_slash r else s
  | [] => []
  end.

(** [s.split(c, 1)[0]]. *)
Fixpoint before (c : N) (s : str) : str :=
  match s with
  | [] => []
  | x :: r => if x =? c then [] else x :: before c r
  end.

(** [str(path)] for an absolute path given by its components. *)
Definition path_str (comps : list str) : str :=
  match comps with
  | [] => [slash]
  | _ => flat_map (fun c => slash :: c) comps
  end.

(** [(start / rel).resolve()] where no component is a symbolic link:
    empty components and ["."] are dropped, [".."] steps up. *)
Definition resolve_step (stack : list str) (comp : str) : list str :=
  if str_eqb comp [] || str_eqb comp [dot] then stack
  else if str_eqb comp [dot; dot] then removelast stack
  else stack ++ [comp].

Definition resolve (start : list str) (rel : str) : list str :=
  fold_left resolve_step (split_on slash [] rel) start.

(** The components of [l] below [p], when [p] is an ancestor of [l]. *)
Fixpoint below_path (p l : list str) : option (list str) :=
  match p, l with
  | [], _ => Some l
  | _ :: _, [] => None
  | x :: p', y :: l' => if str_eqb x y then below_path p' l' else None
  end.

Fixpoint find_node (t : node) (path : list str) : option node :=
  match path with
  | [] => Some t
  | n :: p =>
      match find_entry n (entries_of t) with
      | Some x => find_node x p
      | None => None
      end
  end.

Definition quote : N := 34.
Definition json_ctype : str := py "application/json; charset=utf-8".
Definition default_host : str := py "localhost:5432".
Definition rebuild_done : str :=
  py "{" ++ [quote] ++ py "ok" ++ [quote] ++ py ":true," ++ [quote]
  ++ py "message" ++ [quote] ++ py ":" ++ [quote] ++ py "rebuild done"
  ++ [quote] ++ py "}".

Section Handler.
Variable IGNORE_DIRS : list str.
(** [ROOT], the absolute path of the served directory. *)
Variable ROOT : list str.
Variable fails : list str -> str -> bool.
Variable write_fails : bool.
Variable left_behind : str -> bytes.
(** [json.load] on the bytes of the file, and [mimetypes.guess_type]. *)
Variable json_load : bytes -> outcome json.
Variable guess_type : str -> option str.

(** [local.is_file()], with the content to stream. *)
Definition regular_file (w : world) (local : list str) : option bytes :=
  match below_path ROOT local with
  | Some rel =>
      match find_node (w_root w) rel with
      | Some (File c) => Some c
      | _ => None
      end
  | None => w_outside w local
  end.

(** [self.headers.get("Host") or f"localhost:{PORT}"]. *)
Definition host_of (req : request) : str :=
  match req_host req with
  | Some (c :: h) => c :: h
  | _ => default_host
  end.

Definition serve_strudel_json (w : world) (req : request) : response :=
  match find_entry JSON_NAME (entries_of (w_root w)) with
  | None => SendError 404 (py "No existe strudel.json en esta carpeta")
  | Some (Folder _) =>
      SendError 500 (py "No se pudo leer strudel.json: " ++ py "IsADirectoryError")
  | Some (File content) =>
      match json_load content with
      | Raised e => SendError 500 (py "No se pudo leer strudel.json: " ++ e)
      | Done (JObject members) =>
          let data :=
            dict_set base_key (JString (py "http://" ++ host_of req ++ py "/"))
              members in
          match utf8_encode (dumps (JObject data)) with
          | Some body => Ok200 json_ctype body
          | None => Uncaught (py "UnicodeEncodeError")
          end
      | Done _ => Uncaught (py "TypeError")
      end
  end.

Definition serve_static (w : world) (req : request) : response :=
  let rel := before 35 (before 63 (lstrip_slash (req_path req))) in
  let local := resolve ROOT rel in
  if negb (startswith (path_str ROOT) (path_str local)) then
    SendError 403 (py "Forbidden")
  else
    match regular_file w local with
    | Some content =>
        Ok200 (default (py "application/octet-stream") (guess_type (path_str local)))
          content
    | None => Fallback
    end.

Definition rebuild (w : world) : option (response * world) :=
  match rename_files IGNORE_DIRS fails [] (w_root w) with
  | None => None
  | Some (t1, Raised e) =>
      Some (SendError 500 (py "rebuild error: " ++ e), World t1 (w_outside w))
  | Some (t1, Done _) =>
      match generate_json IGNORE_DIRS write_fails left_behind localhost_url t1 with
      | (t2, Raised e) =>
          Some (SendError 500 (py "rebuild error: " ++ e), World t2 (w_outside w))
      | (t2, Done _) => Some (Ok200 json_ctype rebuild_done, World t2 (w_outside w))
      end
  end.

Definition is_catalog_path (p : str) : bool :=
  str_eqb p [slash] || str_eqb p (slash :: JSON_NAME).

Definition do_GET (w : world) (req : request) : option (response * world) :=
  if startswith (py "/rebuild") (req_path req) then rebuild w
  else if is_catalog_path (req_path req) then Some (serve_strudel_json w req, w)
  else Some (serve_static w req, w).
End Handler.

(** A served tree next to a private one. *)
Definition samples_root : list str := [py "srv"; py "samples"].
Definition secret : list N := py "secret".
Definition neighbour_world : world :=
  World (Folder [])
    (fun p => if bool_decide (p = [py "srv"; py "samples-private"; py "secret.wav"])
              then Some secret else None).

(** A catalog file that loads as an empty object. *)
Definition empty_catalog_world : world :=
  World (Folder [(JSON_NAME, File (py "{}"))]) (fun _ => None).

Definition load_empty (_ : list N) : outcome json := Done (JObject []).

Definition not_base (kv : str * json) : bool := negb (str_eqb (fst kv) base_key).

(** A folder where the second rename fails after the first is done. *)
Definition two_renames : node :=
  Folder [(py "a b.wav", File [1%N]); (py "c d.wav", File [2%N])].

Definition second_fails (_ : list str) (f : str) : bool :=
  bool_decide (f = py "c d.wav").

(** ** Predicates and principles used in the statements *)

Definition clean (cls : N -> bool) (s : str) : Prop :=
  Forall (fun c => cls c = false) s.

(** Two adjacent ['-']. *)
Fixpoint double_dash (s : str) : bool :=
  match s with
  | c :: r =>
      match r with
      | d :: _ => (is_dash c && is_dash d) || double_dash r
      | [] => false
      end
  | [] => false
  end.

Definition starts_dash (s : str) : bool :=
  match s with c :: _ => is_dash c | [] => false end.

Definition blank (s : str) : Prop := Forall (fun c => isspace c = true) s.

Definition sanitize_name (name : str) : str :=
  sanitize_stem (name_stem name) ++ name_suffix name.

(** What the collision policy asks of one rename in directory [d]. *)
Definition follows_policy (d : gset str) (src dst : str) : Prop :=
  let target_name := safe_audio_name src in
  let base := path_stem target_name in
  let ext := path_suffix target_name in
  (dst ∉ d) /\
  (((target_name ∉ d) /\ dst = target_name) \/
   ((target_name ∈ d) /\
    exists i, (1 <= i)%nat /\ dst = candidate base ext i /\
      forall j, (1 <= j < i)%nat -> candidate base ext j ∈ d)).

Fixpoint node_induction (P : node -> Prop)
    (HF : forall c, P (File c))
    (HD : forall es, Forall (fun e => P (snd e)) es -> P (Folder es))
    (t : node) : P t :=
  match t with
  | File c => HF c
  | Folder es =>
      HD es
        ((fix go (l : list (str * node)) : Forall (fun e => P (snd e)) l :=
            match l with
            | [] => Forall_nil_2 _
            | e :: r => Forall_cons_2 _ e r (node_induction P HF HD (snd e)) (go r)
            end) es)
  end.

Fixpoint json_induction (P : json -> Prop)
    (Hnull : P JNull) (Hbool : forall b, P (JBool b)) (Hint : forall z, P (JInt z))
    (Hfloat : forall r, P (JFloat r)) (Hstr : forall s, P (JString s))
    (Harr : forall items, Forall P items -> P (JArray items))
    (Hobj : forall members, Forall (fun kv => P (snd kv)) members -> P (JObject members))
    (v : json) : P v :=
  match v with
  | JNull => Hnull
  | JBool b => Hbool b
  | JInt z => Hint z
  | JFloat r => Hfloat r
  | JString s => Hstr s
  | JArray items =>
      Harr items
        ((fix go (l : list json) : Forall P l :=
            match l with
            | [] => Forall_nil_2 _
            | x :: r =>
                Forall_cons_2 _ x r
                  (json_induction P Hnull Hbool Hint Hfloat Hstr Harr Hobj x) (go r)
            end) items)
  | JObject members =>
      Hobj members
        ((fix go (l : list (str * json)) : Forall (fun kv => P (snd kv)) l :=
            match l with
            | [] => Forall_nil_2 _
            | kv :: r =>
                Forall_cons_2 _ kv r
                  (json_induction P Hnull Hbool Hint Hfloat Hstr Harr Hobj (snd kv))
                  (go r)
            end) members)
  end.

(** What the walk yields below one entry of a folder. *)
Definition below (IGNORE_DIRS : list str) (path : list str) (e : str * node) : list (list str * list str) :=
  if is_folder (snd e) && negb (pruned IGNORE_DIRS (fst e))
  then walk IGNORE_DIRS (path ++ [fst e]) (snd e) else [].

(** ** Further definitions *)

(** A tree with the names of the files a walk can rename erased: what is
    left are the folders with their names, the contents of the files in
    their places, and everything below a pruned folder as it is. *)
Fixpoint skeleton (IGNORE_DIRS : list str) (t : node) : node :=
  match t with
  | File c => File c
  | Folder es =>
      Folder
        (map (fun e =>
                if is_folder (snd e)
                then (fst e,
                      if pruned IGNORE_DIRS (fst e) then snd e
                      else skeleton IGNORE_DIRS (snd e))
                else ([], snd e))
           es)
  end.

Definition skeleton_entry (IGNORE_DIRS : list str) (e : str * node) : str * node :=
  if is_folder (snd e)
  then (fst e, if pruned IGNORE_DIRS (fst e) then snd e
               else skeleton IGNORE_DIRS (snd e))
  else ([], snd e).

(** A path component that names something and is no step: not empty, not
    ["."], not [".."], without ['/'], ['?'] and ['#']. *)
Definition plain_component (c : str) : bool :=
  negb (str_eqb c []) && negb (str_eqb c [dot]) && negb (str_eqb c [dot; dot])
  && forallb (fun x => negb ((x =? slash) || (x =? 63) || (x =? 35))) c.

(** ** [_send_file_streaming]: the loop that copies a file

    [f.read(64 * 1024)] until the chunk is empty; a write that fails with a
    broken pipe ends the loop.  [write_ok k] tells whether the [k]-th write
    succeeds; the result is the list of chunks written. *)
Definition CHUNK : nat := N.to_nat 65536.

Fixpoint stream (size fuel : nat) (write_ok : nat -> bool) (k : nat)
    (content : bytes) : option (list bytes) :=
  match fuel with
  | O => None
  | S fuel' =>
      match take size content with
      | [] => Some []
      | chunk =>
          if write_ok k then
            match stream size fuel' write_ok (S k) (drop size content) with
            | Some chunks => Some (chunk :: chunks)
            | None => None
            end
          else Some []
      end
  end.

(** ** [do_HEAD] *)



Section Head.
Variable IGNORE_DIRS : list str.
Variable ROOT : list str.
Variable fails : list str -> str -> bool.
Variable write_fails : bool.
Variable left_behind : str -> bytes.
Variable json_load : bytes -> outcome json.
Variable guess_type : str -> option str.



End Head.

(** * Properties *)

Example safe_kick : safe_audio_name (py "Kick  One - 2.WAV") = py "Kick-One-2.WAV".
Proof. vm_compute. reflexivity. Qed.
Example safe_lead : safe_audio_name (py " a.wav") = py "a.wav".
Proof. vm_compute. reflexivity. Qed.
Example safe_ws_ext : safe_audio_name (py " . b") = py ". b".
Proof. vm_compute. reflexivity. Qed.
Example safe_ws_ext2 : safe_audio_name (py ". b") = py ".-b".
Proof. vm_compute. reflexivity. Qed.
Example safe_dir : safe_audio_name (py "x y/a  b.ogg") = py "a-b.ogg".
Proof. vm_compute. reflexivity. Qed.
Example safe_blank : safe_audio_name (py " ") = py "".
Proof. vm_compute. reflexivity. Qed.

Example default_host_port : default_host = py "localhost:" ++ str_of_nat PORT.
Proof. vm_compute. reflexivity. Qed.

Example rename_snare :
  rename_dir no_fail {[py "snare A.wav"; py "snare-A.wav"]}
    [py "snare A.wav"; py "snare-A.wav"]
  = Some ({[py "snare-A-1.wav"; py "snare-A.wav"]},
          [(py "snare A.wav", py "snare-A-1.wav")], Done tt).
Proof. vm_compute. reflexivity. Qed.

(** ** Regular-expression substitution as run squeezing *)

Section Squeeze.
Variable cls : N -> bool.
Variable n : nat.
Hypothesis flush_run :
  forall run : str, run <> [] -> Forall (fun c => cls c = true) run ->
    flush n [dash] run = [dash].

Lemma re_sub_from_squeeze (s : str) :
  re_sub_from cls n [dash] [] s = squeeze cls false s /\
  forall run : str, run <> [] -> Forall (fun c => cls c = true) run ->
    re_sub_from cls n [dash] run s = dash :: squeeze cls true s.
Proof.
  induction s as [|c r [IH0 IH1]]; simpl.
  - split; [reflexivity|]. intros run Hne Hall. now apply flush_run.
  - destruct (cls c) eqn:Hc.
    + split.
      * apply (IH1 [c]); [discriminate|]. now constructor.
      * intros run Hne Hall. apply IH1.
        -- destruct run; discriminate.
        -- apply Forall_app; split; [assumption|]. now constructor.
    + split.
      * now rewrite IH0.
      * intros run Hne Hall. rewrite flush_run, IH0 by assumption. reflexivity.
Qed.

Lemma re_sub_squeeze (s : str) : re_sub cls n [dash] s = squeeze cls false s.
Proof. apply re_sub_from_squeeze. Qed.
End Squeeze.

Lemma re_sub_space (s : str) : re_sub isspace 1 [dash] s = squeeze isspace false s.
Proof.
  apply re_sub_squeeze. intros run Hne _. destruct run; [contradiction|reflexivity].
Qed.

Lemma is_dash_eq (c : N) : is_dash c = true -> c = dash.
Proof. unfold is_dash. apply N.eqb_eq. Qed.

Lemma re_sub_dash (s : str) : re_sub is_dash 2 [dash] s = squeeze is_dash false s.
Proof.
  apply re_sub_squeeze. intros run Hne Hall.
  destruct run as [|c [|c' run]]; [contradiction| |reflexivity].
  apply Forall_cons in Hall as [Hc _]. apply is_dash_eq in Hc. now subst.
Qed.

Lemma sanitize_stem_squeeze (stem : str) :
  sanitize_stem stem
  = squeeze is_dash false (squeeze isspace false (strip stem)).
Proof. unfold sanitize_stem. now rewrite re_sub_space, re_sub_dash. Qed.

(** ** Facts on [squeeze] *)

Lemma squeeze_clean_id (cls : N -> bool) (s : str) :
  clean cls s -> squeeze cls false s = s.
Proof.
  induction 1 as [|c r Hc _ IH]; simpl; [reflexivity|].
  now rewrite Hc, IH.
Qed.

Lemma squeeze_makes_clean (cls : N -> bool) (inside : bool) (s : str) :
  cls dash = false -> clean cls (squeeze cls inside s).
Proof.
  intros Hd. revert inside.
  induction s as [|c r IH]; intros inside; simpl; [constructor|].
  destruct (cls c) eqn:Hc.
  - destruct inside; [apply IH|]. constructor; [assumption|apply IH].
  - constructor; [assumption|apply IH].
Qed.

Lemma squeeze_keeps (P : N -> Prop) (cls : N -> bool) (inside : bool) (s : str) :
  P dash -> Forall P s -> Forall P (squeeze cls inside s).
Proof.
  intros Hd Hs. revert inside.
  induction Hs as [|c r Hc _ IH]; intros inside; simpl; [constructor|].
  destruct (cls c).
  - destruct inside; [apply IH|]. constructor; [assumption|apply IH].
  - constructor; [assumption|apply IH].
Qed.

Lemma double_dash_cons (c : N) (s : str) :
  double_dash (c :: s) = (is_dash c && starts_dash s) || double_dash s.
Proof. destruct s; simpl; [now rewrite andb_false_r|reflexivity]. Qed.

Lemma squeeze_dash_single (inside : bool) (s : str) :
  double_dash (squeeze is_dash inside s) = false /\
  (inside = true -> starts_dash (squeeze is_dash inside s) = false).
Proof.
  revert inside. induction s as [|c r IH]; intros inside; [now split|].
  cbn [squeeze]. destruct (is_dash c) eqn:Hc.
  - destruct inside; [apply IH|].
    split; [|discriminate]. rewrite double_dash_cons.
    destruct (IH true) as [E1 E2]. rewrite E1, (E2 eq_refl), andb_false_r.
    reflexivity.
  - split.
    + rewrite double_dash_cons, Hc. simpl. apply IH.
    + intros _. simpl. exact Hc.
Qed.

Lemma squeeze_dash_fix (s : str) :
  double_dash s = false ->
  squeeze is_dash false s = s /\
  (starts_dash s = false -> squeeze is_dash true s = s).
Proof.
  induction s as [|c r IH]; [now split|].
  rewrite double_dash_cons. intros H.
  apply orb_false_iff in H as [H1 H2].
  destruct (IH H2) as [IH0 IH1]. cbn [squeeze starts_dash].
  destruct (is_dash c) eqn:Hc.
  - simpl in H1. split; [|discriminate].
    rewrite IH1 by assumption. apply is_dash_eq in Hc. now subst.
  - now rewrite IH0.
Qed.

Lemma isspace_dash : isspace dash = false.
Proof. reflexivity. Qed.

Lemma isspace_dot : isspace dot = false.
Proof. reflexivity. Qed.

(** ** Facts on [strip] *)

Lemma lstrip_blank_app (a b : str) : blank a -> lstrip (a ++ b) = lstrip b.
Proof. induction 1 as [|c r Hc _ IH]; simpl; [reflexivity|]. now rewrite Hc. Qed.

Lemma lstrip_head (s : str) :
  (forall c, head s = Some c -> isspace c = false) -> lstrip s = s.
Proof. destruct s as [|c r]; simpl; [reflexivity|]. intros H. now rewrite H. Qed.

Lemma lstrip_app_head (a b : str) :
  a <> [] -> (forall c, head a = Some c -> isspace c = false) ->
  lstrip (a ++ b) = a ++ b.
Proof.
  destruct a as [|c r]; [contradiction|]. intros _ H. simpl.
  now rewrite H.
Qed.

Lemma strip_core (lead core trail : str) :
  blank lead -> blank trail ->
  (forall c, head core = Some c -> isspace c = false) ->
  (forall c, last core = Some c -> isspace c = false) ->
  strip (lead ++ core ++ trail) = core.
Proof.
  intros Hl Ht Hh Hlast. unfold strip, rstrip.
  rewrite lstrip_blank_app by assumption.
  destruct core as [|c r].
  - simpl. assert (E : lstrip trail = []).
    { rewrite <- (app_nil_r trail), lstrip_blank_app by assumption. reflexivity. }
    rewrite E. reflexivity.
  - rewrite lstrip_app_head by (try discriminate; assumption).
    rewrite reverse_app, lstrip_blank_app.
    + rewrite lstrip_head; [apply reverse_involutive|].
      intros x Hx. apply Hlast. rewrite <- Hx.
      rewrite <- (reverse_involutive (c :: r)) at 1. now rewrite last_reverse.
    + unfold blank. now apply Forall_reverse.
Qed.

Lemma strip_clean (s : str) : clean isspace s -> strip s = s.
Proof.
  intros H. rewrite <- (app_nil_r s) at 1. change (s ++ []) with ([] ++ s ++ []).
  apply strip_core; try constructor.
  - intros c Hc. destruct s; [discriminate|]. injection Hc as ->.
    now apply Forall_cons in H as [? _].
  - intros c Hc. apply last_Some in Hc as [l' ->].
    apply Forall_app in H as [_ H]. now apply Forall_cons in H as [? _].
Qed.

Lemma strip_blank (s : str) : blank s -> strip s = [].
Proof.
  intros H. rewrite <- (app_nil_r s). change (s ++ []) with (s ++ [] ++ []).
  apply strip_core; try assumption; try constructor; discriminate.
Qed.

Lemma lstrip_decomp (s : str) : exists a, blank a /\ s = a ++ lstrip s.
Proof.
  induction s as [|c r [a [Ha E]]]; [exists []; split; [constructor|reflexivity]|].
  simpl. destruct (isspace c) eqn:Hc.
  - exists (c :: a). split; [now constructor|]. simpl. now f_equal.
  - exists []. split; [constructor|reflexivity].
Qed.

Lemma strip_decomp (s : str) :
  exists a b, blank a /\ blank b /\ s = a ++ strip s ++ b.
Proof.
  destruct (lstrip_decomp s) as [a [Ha Ea]].
  destruct (lstrip_decomp (reverse (lstrip s))) as [b [Hb Eb]].
  exists a, (reverse b). split; [assumption|]. split.
  - now apply Forall_reverse.
  - unfold strip, rstrip. rewrite <- reverse_app, <- Eb, reverse_involutive.
    exact Ea.
Qed.

Lemma strip_nil_blank (s : str) : strip s = [] -> blank s.
Proof.
  intros E. destruct (strip_decomp s) as [a [b [Ha [Hb Es]]]].
  rewrite E in Es. rewrite Es. simpl. apply Forall_app. now split.
Qed.

Lemma squeeze_nil_inv (cls : N -> bool) (s : str) :
  squeeze cls false s = [] -> s = [].
Proof. destruct s as [|c r]; [reflexivity|]. simpl. destruct (cls c); discriminate. Qed.

(** ** Facts on the split of a name into stem and suffix *)

Lemma rfind_None (s : str) : rfind dot s = None -> dot ∉ s.
Proof.
  induction s as [|x r IH]; simpl; [intros _; apply not_elem_of_nil|].
  destruct (rfind dot r); [discriminate|].
  destruct (x =? dot) eqn:Hx; [discriminate|]. intros _.
  apply not_elem_of_cons. split; [|now apply IH].
  intros <-. now rewrite N.eqb_refl in Hx.
Qed.

Lemma rfind_notin (s : str) : dot ∉ s -> rfind dot s = None.
Proof.
  induction s as [|x r IH]; simpl; [reflexivity|]. intros H.
  apply not_elem_of_cons in H as [H1 H2]. rewrite IH by assumption.
  destruct (x =? dot) eqn:Hx; [|reflexivity].
  apply N.eqb_eq in Hx. now subst.
Qed.

Lemma rfind_app_dot (a b : str) :
  dot ∉ b -> rfind dot (a ++ dot :: b) = Some (length a).
Proof.
  intros Hb. induction a as [|x a IH]; simpl.
  - now rewrite rfind_notin.
  - now rewrite IH.
Qed.

Lemma rfind_Some_inv (s : str) (i : nat) :
  rfind dot s = Some i ->
  exists a b, s = a ++ dot :: b /\ length a = i /\ dot ∉ b.
Proof.
  revert i. induction s as [|x r IH]; simpl; intros i; [discriminate|].
  destruct (rfind dot r) as [j|] eqn:E.
  - intros [= <-]. destruct (IH j eq_refl) as [a [b [-> [<- Hb]]]].
    now exists (x :: a), b.
  - destruct (x =? dot) eqn:Hx; [|discriminate]. intros [= <-].
    apply N.eqb_eq in Hx. subst x. exists [], r.
    repeat split. now apply rfind_None.
Qed.

Lemma ext_index_split (a b : str) :
  a <> [] -> b <> [] -> dot ∉ b -> ext_index (a ++ dot :: b) = Some (length a).
Proof.
  intros Ha Hb Hd. unfold ext_index. rewrite rfind_app_dot by assumption.
  destruct a as [|x a]; [contradiction|]. destruct b as [|y b]; [contradiction|].
  replace ((0 <? length (x :: a))%nat) with true
    by (symmetry; apply Nat.ltb_lt; simpl; lia).
  replace ((length (x :: a) <? length ((x :: a) ++ dot :: y :: b) - 1)%nat) with true.
  - reflexivity.
  - symmetry. apply Nat.ltb_lt. rewrite length_app. simpl. lia.
Qed.

Lemma ext_index_Some_inv (name : str) (i : nat) :
  ext_index name = Some i ->
  exists a b, name = a ++ dot :: b /\ i = length a /\ a <> [] /\ b <> [] /\ dot ∉ b.
Proof.
  unfold ext_index. destruct (rfind dot name) as [j|] eqn:E; [|discriminate].
  destruct (0 <? j)%nat eqn:H0; [|discriminate].
  destruct (j <? length name - 1)%nat eqn:H1; [|discriminate].
  intros [= <-]. apply Nat.ltb_lt in H0, H1.
  destruct (rfind_Some_inv _ _ E) as [a [b [-> [<- Hb]]]].
  exists a, b. repeat split; try assumption.
  - intros ->. simpl in H0. lia.
  - intros ->. rewrite length_app in H1. simpl in H1. lia.
Qed.

Lemma ext_index_None_inv (name a b : str) :
  ext_index name = None -> name = a ++ dot :: b -> dot ∉ b -> a = [] \/ b = [].
Proof.
  intros E -> Hb. destruct a as [|x a]; [now left|].
  destruct b as [|y b]; [now right|].
  rewrite ext_index_split in E; [discriminate|discriminate|discriminate|assumption].
Qed.

Lemma name_split (a b : str) :
  a <> [] -> b <> [] -> dot ∉ b ->
  name_stem (a ++ dot :: b) = a /\ name_suffix (a ++ dot :: b) = dot :: b.
Proof.
  intros Ha Hb Hd. unfold name_stem, name_suffix.
  rewrite ext_index_split by assumption. split.
  - apply take_app_length.
  - apply drop_app_length.
Qed.

Lemma name_stem_suffix (name : str) : name = name_stem name ++ name_suffix name.
Proof.
  unfold name_stem, name_suffix. destruct (ext_index name).
  - symmetry. apply take_drop.
  - now rewrite app_nil_r.
Qed.

(** ** Facts on [Path.name] *)

Lemma split_on_no_sep (cur s : str) :
  slash ∉ s -> split_on slash cur s = [cur ++ s].
Proof.
  revert cur. induction s as [|c r IH]; intros cur H; simpl.
  - now rewrite app_nil_r.
  - apply not_elem_of_cons in H as [H1 H2].
    destruct (c =? slash) eqn:Hc.
    + apply N.eqb_eq in Hc. now subst.
    + rewrite IH by assumption. now rewrite <- app_assoc.
Qed.

Lemma split_on_parts (cur s : str) :
  slash ∉ cur -> Forall (fun p => slash ∉ p) (split_on slash cur s).
Proof.
  revert cur. induction s as [|c r IH]; intros cur H; simpl.
  - now constructor.
  - destruct (c =? slash) eqn:Hc.
    + constructor; [assumption|]. apply IH, not_elem_of_nil.
    + apply IH. apply not_elem_of_app. split; [assumption|].
      apply not_elem_of_cons. split; [|apply not_elem_of_nil].
      intros <-. now rewrite N.eqb_refl in Hc.
Qed.

Lemma last_default_or_in {A : Type} (l : list A) (d : A) :
  (l = [] /\ List.last l d = d) \/ In (List.last l d) l.
Proof.
  induction l as [|x l IH]; [now left|]. right.
  destruct l as [|y l]; [now left|].
  destruct IH as [[E _]|IH]; [discriminate|]. right. exact IH.
Qed.

Lemma path_name_facts (s : str) :
  (slash ∉ path_name s) /\ path_name s <> [dot].
Proof.
  unfold path_name.
  set (keep := fun c : str => negb (str_eqb c [] || str_eqb c [dot])).
  destruct (last_default_or_in (List.filter keep (split_on slash [] s)) [])
    as [[_ ->]|Hin].
  - split; [apply not_elem_of_nil|discriminate].
  - apply filter_In in Hin as [Hin Hk]. split.
    + pose proof (split_on_parts [] s (not_elem_of_nil _)) as Hall.
      rewrite Forall_forall in Hall. apply Hall. now apply list_elem_of_In.
    + intros E. rewrite E in Hk. unfold keep, str_eqb in Hk.
      rewrite (bool_decide_eq_true_2 ([dot] = [dot]) eq_refl) in Hk.
      now rewrite orb_true_r in Hk.
Qed.

Lemma path_name_id (s : str) : slash ∉ s -> s <> [dot] -> path_name s = s.
Proof.
  intros Hs Hd. unfold path_name. rewrite split_on_no_sep by assumption. simpl.
  destruct s as [|c r]; [reflexivity|].
  unfold str_eqb. rewrite bool_decide_eq_false_2 by discriminate.
  rewrite (bool_decide_eq_false_2 (c :: r = [dot]) Hd). reflexivity.
Qed.

Lemma path_name_idem (s : str) : path_name (path_name s) = path_name s.
Proof. destruct (path_name_facts s). now apply path_name_id. Qed.

(** ** The sanitizer on a single name *)

Lemma safe_audio_name_name (filename : str) :
  safe_audio_name filename = sanitize_name (path_name filename).
Proof. reflexivity. Qed.

Lemma sanitize_stem_clean (stem : str) : clean isspace (sanitize_stem stem).
Proof.
  rewrite sanitize_stem_squeeze. apply squeeze_keeps; [reflexivity|].
  apply squeeze_makes_clean. reflexivity.
Qed.

Lemma sanitize_stem_single (stem : str) : double_dash (sanitize_stem stem) = false.
Proof. rewrite sanitize_stem_squeeze. apply squeeze_dash_single. Qed.

Lemma sanitize_stem_fix (s : str) :
  clean isspace s -> double_dash s = false -> sanitize_stem s = s.
Proof.
  intros Hc Hd. rewrite sanitize_stem_squeeze, strip_clean by assumption.
  rewrite (squeeze_clean_id isspace) by assumption. now apply squeeze_dash_fix.
Qed.

Lemma sanitize_stem_idem (stem : str) :
  sanitize_stem (sanitize_stem stem) = sanitize_stem stem.
Proof.
  apply sanitize_stem_fix; [apply sanitize_stem_clean|apply sanitize_stem_single].
Qed.

Lemma sanitize_stem_keeps (P : N -> Prop) (stem : str) :
  P dash -> Forall P stem -> Forall P (sanitize_stem stem).
Proof.
  intros Hd Hs. rewrite sanitize_stem_squeeze.
  do 2 (apply squeeze_keeps; [assumption|]).
  destruct (strip_decomp stem) as [a [b [_ [_ E]]]]. rewrite E in Hs.
  apply Forall_app in Hs as [_ Hs]. now apply Forall_app in Hs as [Hs _].
Qed.

Lemma sanitize_stem_nonempty (stem : str) :
  ~ blank stem -> sanitize_stem stem <> [].
Proof.
  intros Hb E. rewrite sanitize_stem_squeeze in E.
  apply squeeze_nil_inv, squeeze_nil_inv, strip_nil_blank in E. contradiction.
Qed.

Lemma squeeze_elem_keep (cls : N -> bool) (inside : bool) (c : N) (s : str) :
  cls c = false -> c ∈ s -> c ∈ squeeze cls inside s.
Proof.
  intros Hc Hin. revert inside.
  induction s as [|x r IH]; intros inside; [now apply elem_of_nil in Hin|].
  apply elem_of_cons in Hin as [<-|Hin]; simpl.
  - rewrite Hc. apply elem_of_cons. now left.
  - destruct (cls x).
    + destruct inside; [now apply IH|]. apply elem_of_cons. right. now apply IH.
    + apply elem_of_cons. right. now apply IH.
Qed.

Lemma squeeze_split_dot (cls : N -> bool) (inside : bool) (s a b : str) :
  cls dot = false ->
  squeeze cls inside s = a ++ dot :: b ->
  exists a' b', s = a' ++ dot :: b' /\
    a = squeeze cls inside a' /\ b = squeeze cls false b'.
Proof.
  intros Hd. revert inside a.
  induction s as [|c r IH]; intros inside a E; simpl in E.
  - now destruct a.
  - destruct (cls c) eqn:Hc.
    + destruct inside.
      * destruct (IH _ _ E) as [a' [b' [-> [-> ->]]]].
        exists (c :: a'), b'. simpl. now rewrite Hc.
      * destruct a as [|x a]; [discriminate|]. injection E as <- E.
        destruct (IH _ _ E) as [a' [b' [-> [-> ->]]]].
        exists (c :: a'), b'. simpl. now rewrite Hc.
    + destruct a as [|x a]; simpl in E; injection E as -> E.
      * exists [], r. now subst.
      * destruct (IH _ _ E) as [a' [b' [-> [-> ->]]]].
        exists (x :: a'), b'. simpl. now rewrite Hc.
Qed.

Lemma squeeze_split_ext (cls : N -> bool) (s a b : str) :
  cls dot = false ->
  squeeze cls false s = a ++ dot :: b -> a <> [] -> b <> [] -> dot ∉ b ->
  exists a' b', s = a' ++ dot :: b' /\ a' <> [] /\ b' <> [] /\ dot ∉ b'.
Proof.
  intros Hd E Ha Hb Hn.
  destruct (squeeze_split_dot _ _ _ _ _ Hd E) as [a' [b' [-> [-> ->]]]].
  exists a', b'. repeat split.
  - intros ->. now apply Ha.
  - intros ->. now apply Hb.
  - intros Hin. apply Hn. now apply squeeze_elem_keep.
Qed.

Lemma sanitize_stem_ext_None (name : str) :
  ext_index name = None -> ext_index (sanitize_stem name) = None.
Proof.
  intros HN. destruct (ext_index (sanitize_stem name)) as [i|] eqn:E; [|reflexivity].
  exfalso. apply ext_index_Some_inv in E as [a [b [E [_ [Ha [Hb Hd]]]]]].
  rewrite sanitize_stem_squeeze in E.
  apply squeeze_split_ext in E as [a1 [b1 [E [Ha1 [Hb1 Hd1]]]]];
    [|reflexivity|assumption..].
  apply squeeze_split_ext in E as [a2 [b2 [E [Ha2 [Hb2 Hd2]]]]];
    [|reflexivity|assumption..].
  destruct (strip_decomp name) as [l [t [Hl [Ht En]]]].
  rewrite E in En. rewrite <- app_assoc in En. simpl in En.
  rewrite app_assoc in En.
  destruct (ext_index_None_inv name (l ++ a2) (b2 ++ t) HN En) as [H|H].
  - apply not_elem_of_app. split; [assumption|].
    intros Hin. unfold blank in Ht. rewrite Forall_forall in Ht.
    specialize (Ht _ Hin). discriminate.
  - apply app_eq_nil in H as [_ H]. contradiction.
  - apply app_eq_nil in H as [H _]. contradiction.
Qed.

Lemma ext_index_leading_dot (b : str) : dot ∉ b -> ext_index (dot :: b) = None.
Proof.
  intros H. unfold ext_index.
  change (dot :: b) with ([] ++ dot :: b) at 1.
  rewrite (rfind_app_dot [] b H). reflexivity.
Qed.

Lemma sanitize_name_idem (name : str) :
  ~ blank (name_stem name) \/
  (clean isspace (name_suffix name) /\ double_dash (name_suffix name) = false) ->
  sanitize_name (sanitize_name name) = sanitize_name name.
Proof.
  intros H. unfold sanitize_name at 2 3. unfold name_stem, name_suffix in *.
  destruct (ext_index name) as [i|] eqn:E.
  - apply ext_index_Some_inv in E as [a [b [-> [-> [Ha [Hb Hd]]]]]].
    rewrite take_app_length, drop_app_length in *.
    destruct (sanitize_stem a) as [|x a'] eqn:Ea.
    + simpl. destruct H as [H|[Hc Hdd]].
      * now apply sanitize_stem_nonempty in H.
      * unfold sanitize_name, name_stem, name_suffix.
        rewrite ext_index_leading_dot by assumption.
        rewrite app_nil_r. now apply sanitize_stem_fix.
    + unfold sanitize_name.
      destruct (name_split (x :: a') b) as [-> ->]; try assumption; [discriminate|].
      now rewrite <- Ea, sanitize_stem_idem.
  - rewrite app_nil_r. unfold sanitize_name, name_stem, name_suffix.
    rewrite sanitize_stem_ext_None by assumption.
    now rewrite app_nil_r, sanitize_stem_idem.
Qed.

Lemma sanitize_name_no_slash (name : str) :
  slash ∉ name -> slash ∉ sanitize_name name.
Proof.
  intros H. unfold sanitize_name.
  assert (Hall : Forall (fun c => c <> slash) name).
  { apply Forall_forall. intros c Hc ->. contradiction. }
  rewrite (name_stem_suffix name) in Hall. apply Forall_app in Hall as [H1 H2].
  assert (Hout : Forall (fun c => c <> slash)
                   (sanitize_stem (name_stem name) ++ name_suffix name)).
  { apply Forall_app. split; [|assumption].
    apply sanitize_stem_keeps; [discriminate|assumption]. }
  rewrite Forall_forall in Hout. intros Hin. now apply (Hout _ Hin).
Qed.

(** ** The sanitizer: claims *)

(** C4, as stated, fails: a stem with leading whitespace does not get a
    ['-'] for that run; the code strips it. *)
Lemma safe_audio_name_not_described :
  safe_audio_name (py " a.wav") <> described_sanitize (py " a.wav").
Proof. vm_compute. discriminate. Qed.

(** C4, amended: the name splits into stem and extension; leading and
    trailing whitespace of the stem is deleted; in what remains every
    maximal run of whitespace becomes one ['-'] and every maximal run of
    ['-'] becomes one ['-']; the extension is appended unchanged.  The
    resulting stem holds no whitespace and no two adjacent ['-'].  The
    function is total and pure by construction. *)
Theorem safe_audio_name_strips_and_squeezes (filename : str) :
  let stem' :=
    squeeze is_dash false (squeeze isspace false (strip (path_stem filename))) in
  path_name filename = path_stem filename ++ path_suffix filename /\
  safe_audio_name filename = stem' ++ path_suffix filename /\
  clean isspace stem' /\
  double_dash stem' = false.
Proof.
  cbv zeta. rewrite <- sanitize_stem_squeeze. repeat split.
  - apply name_stem_suffix.
  - apply sanitize_stem_clean.
  - apply sanitize_stem_single.
Qed.

(** C5, as stated, fails: with a blank stem and whitespace in the
    extension the first result is re-split differently. *)
Lemma safe_audio_name_not_idempotent :
  safe_audio_name (safe_audio_name (py " . b")) <> safe_audio_name (py " . b").
Proof. vm_compute. discriminate. Qed.

(** C5, amended: the sanitizer is idempotent on every filename whose
    result is not ["."] and whose stem has a non-whitespace character or
    whose extension has no whitespace and no two adjacent ['-']. *)
Theorem safe_audio_name_idempotent (filename : str) :
  safe_audio_name filename <> [dot] ->
  ~ blank (path_stem filename) \/
  (clean isspace (path_suffix filename) /\
   double_dash (path_suffix filename) = false) ->
  safe_audio_name (safe_audio_name filename) = safe_audio_name filename.
Proof.
  intros Hdot H. rewrite !safe_audio_name_name in *.
  destruct (path_name_facts filename) as [Hs _].
  rewrite path_name_id.
  - now apply sanitize_name_idem.
  - now apply sanitize_name_no_slash.
  - assumption.
Qed.

Lemma safe_audio_name_idempotent_witness :
  safe_audio_name (safe_audio_name (py "Kick  One.wav"))
  = safe_audio_name (py "Kick  One.wav").
Proof.
  apply safe_audio_name_idempotent.
  - vm_compute. discriminate.
  - right. split; [|reflexivity]. vm_compute. repeat constructor.
Defined.

Lemma squeeze_head (c : N) (r : str) :
  isspace c = false ->
  head (squeeze is_dash false (squeeze isspace false (c :: r))) = Some c.
Proof.
  intros Hc. simpl. rewrite Hc. simpl.
  destruct (is_dash c) eqn:Hd; [|reflexivity].
  apply is_dash_eq in Hd. now subst.
Qed.

Lemma squeeze_snoc (cls : N -> bool) (inside : bool) (s : str) (c : N) :
  cls c = false -> squeeze cls inside (s ++ [c]) = squeeze cls inside s ++ [c].
Proof.
  intros Hc. revert inside.
  induction s as [|x r IH]; intros inside; simpl; [now rewrite Hc|].
  destruct (cls x); [destruct inside|]; now rewrite IH.
Qed.

Lemma last_cons_some {A : Type} (x y : A) (l : list A) :
  last l = Some y -> last (x :: l) = Some y.
Proof. destruct l; [discriminate|]. intros H. exact H. Qed.

Lemma squeeze_dash_snoc (inside : bool) (s : str) :
  (inside = true /\ squeeze is_dash inside (s ++ [dash]) = []) \/
  last (squeeze is_dash inside (s ++ [dash])) = Some dash.
Proof.
  revert inside. induction s as [|x r IH]; intros inside; simpl.
  - destruct inside; [now left|now right].
  - destruct (is_dash x) eqn:Hx.
    + destruct inside; [apply IH|]. right.
      destruct (IH true) as [[_ ->]|H]; [reflexivity|].
      now apply last_cons_some.
    + right. destruct (IH false) as [[? _]|H]; [discriminate|].
      now apply last_cons_some.
Qed.

Lemma squeeze_last (s : str) (c : N) :
  isspace c = false ->
  last (squeeze is_dash false (squeeze isspace false (s ++ [c]))) = Some c.
Proof.
  intros Hc. rewrite squeeze_snoc by assumption.
  destruct (is_dash c) eqn:Hd.
  - apply is_dash_eq in Hd. subst c.
    destruct (squeeze_dash_snoc false (squeeze isspace false s)) as [[? _]|H];
      [discriminate|exact H].
  - rewrite squeeze_snoc by assumption. apply last_snoc.
Qed.

(** C10, as stated, fails where the extension is empty: the output is the
    extension, which then is the empty string, not a name that begins with
    ['.']. *)
Lemma blank_stem_output_without_dot :
  blank (path_stem (py " ")) /\ path_stem (py " ") <> [] /\
  safe_audio_name (py " ") = path_suffix (py " ") /\
  head (safe_audio_name (py " ")) <> Some dot.
Proof.
  vm_compute. repeat split; try discriminate. repeat constructor.
Qed.

(** C10, amended: leading and trailing whitespace of the stem is deleted
    with no ['-'] in its place: with the stem written as whitespace, a
    core that neither begins nor ends with whitespace, and whitespace, the
    output is the squeezed core followed by the extension, and the output
    stem begins and ends with the characters the core begins and ends
    with.  When the stem is all whitespace (empty core) the output is
    exactly the extension, which begins with ['.'] unless it is empty. *)
Theorem safe_audio_name_drops_edges (filename lead core trail : str) :
  path_stem filename = lead ++ core ++ trail ->
  blank lead -> blank trail ->
  (forall c, head core = Some c -> isspace c = false) ->
  (forall c, last core = Some c -> isspace c = false) ->
  let stem' := squeeze is_dash false (squeeze isspace false core) in
  safe_audio_name filename = stem' ++ path_suffix filename /\
  head stem' = head core /\
  last stem' = last core /\
  (core = [] ->
   safe_audio_name filename = path_suffix filename /\
   (path_suffix filename <> [] -> head (safe_audio_name filename) = Some dot)).
Proof.
  intros E Hl Ht Hh Hla stem'.
  assert (Eout : safe_audio_name filename = stem' ++ path_suffix filename).
  { unfold safe_audio_name. rewrite sanitize_stem_squeeze, E.
    now rewrite strip_core. }
  split; [exact Eout|]. split; [|split].
  - subst stem'. destruct core as [|c r]; [reflexivity|].
    apply squeeze_head. now apply Hh.
  - subst stem'. destruct (decide (core = [])) as [->|Hne]; [reflexivity|].
    destruct (exists_last Hne) as [s [c ->]].
    rewrite last_snoc. apply squeeze_last. apply Hla, last_snoc.
  - intros ->. subst stem'. rewrite Eout. simpl. split; [reflexivity|].
    intros Hs. unfold path_suffix, name_suffix in *.
    destruct (ext_index (path_name filename)) as [i|] eqn:Ei; [|contradiction].
    apply ext_index_Some_inv in Ei as [a [b [-> [-> _]]]].
    now rewrite drop_app_length.
Qed.

Lemma safe_audio_name_drops_edges_witness :
  safe_audio_name (py "  Kick One .wav") = py "Kick-One.wav".
Proof.
  apply (safe_audio_name_drops_edges (py "  Kick One .wav")
           (py "  ") (py "Kick One") (py " ")).
  - reflexivity.
  - vm_compute. repeat constructor.
  - vm_compute. repeat constructor.
  - intros c [= <-]. reflexivity.
  - intros c [= <-]. reflexivity.
Defined.

(** ** The renamer: candidate names *)

Local Close Scope N_scope.

Lemma uint_str_inj (a b : Decimal.uint) : uint_str a = uint_str b -> a = b.
Proof.
  revert b. induction a; intros b E; destruct b; simpl in E;
    try discriminate; try reflexivity; injection E as E; f_equal; now apply IHa.
Qed.

Lemma str_of_nat_inj (i j : nat) : str_of_nat i = str_of_nat j -> i = j.
Proof.
  intros E. apply uint_str_inj in E. now apply DecimalNat.Unsigned.to_uint_inj.
Qed.

Lemma candidate_inj (base ext : str) (i j : nat) :
  candidate base ext i = candidate base ext j -> i = j.
Proof.
  unfold candidate. intros E. apply app_inv_head in E. simpl in E.
  injection E as E. apply app_inv_tail in E. now apply str_of_nat_inj.
Qed.

Lemma find_free_spec (fuel : nat) (d : gset str) (base ext : str) (i : nat) (c : str) :
  find_free fuel d base ext i = Some c ->
  exists k, c = candidate base ext (i + k) /\ (c ∉ d) /\
    forall j, j < k -> candidate base ext (i + j) ∈ d.
Proof.
  revert i. induction fuel as [|fuel IH]; intros i; simpl; [discriminate|].
  unfold exists_in. destruct (decide (candidate base ext i ∈ d)) as [Hin|Hout].
  - rewrite bool_decide_eq_true_2 by assumption. intros E.
    destruct (IH _ E) as [k [-> [Hc Hall]]]. exists (S k).
    split; [f_equal; lia|]. split; [assumption|].
    intros [|j] Hj; [now rewrite Nat.add_0_r|].
    replace (i + S j) with (S i + j) by lia. apply Hall. lia.
  - rewrite bool_decide_eq_false_2 by assumption. intros [= <-].
    exists 0. rewrite Nat.add_0_r. split; [reflexivity|]. split; [assumption|].
    intros j Hj. lia.
Qed.

Lemma find_free_None (fuel : nat) (d : gset str) (base ext : str) (i : nat) :
  find_free fuel d base ext i = None ->
  forall j, j < fuel -> candidate base ext (i + j) ∈ d.
Proof.
  revert i. induction fuel as [|fuel IH]; intros i; simpl; [intros _ j Hj; lia|].
  unfold exists_in. destruct (decide (candidate base ext i ∈ d)) as [Hin|Hout].
  - rewrite bool_decide_eq_true_2 by assumption. intros E [|j] Hj.
    + now rewrite Nat.add_0_r.
    + replace (i + S j) with (S i + j) by lia. apply (IH _ E). lia.
  - rewrite bool_decide_eq_false_2 by assumption. discriminate.
Qed.

(** The loop ends: a directory cannot hold more candidates than names. *)
Lemma find_free_total (d : gset str) (base ext : str) (i : nat) :
  find_free (S (size d)) d base ext i <> None.
Proof.
  intros E. pose proof (find_free_None _ _ _ _ _ E) as Hall.
  set (l := map (fun j => candidate base ext (i + j)) (seq 0 (S (size d)))).
  assert (Hnd : NoDup l).
  { apply NoDup_fmap_2.
    - intros a b Hab. apply candidate_inj in Hab. lia.
    - apply NoDup_seq. }
  assert (Hsub : (list_to_set l : gset str) ⊆ d).
  { intros x Hx. apply elem_of_list_to_set in Hx.
    apply list_elem_of_fmap in Hx as [j [-> Hj]].
    apply Hall. apply elem_of_seq in Hj. lia. }
  apply subseteq_size in Hsub. rewrite size_list_to_set in Hsub by assumption.
  unfold l in Hsub. rewrite length_map, length_seq in Hsub. lia.
Qed.

Lemma destination_total (d : gset str) (fname : str) : destination d fname <> None.
Proof.
  unfold destination. destruct (negb (allowed fname)); [discriminate|].
  destruct (str_eqb _ fname); [discriminate|].
  destruct (exists_in d _); [|discriminate].
  destruct (find_free _ _ _ _ _) eqn:E; [discriminate|].
  now apply find_free_total in E.
Qed.

Lemma destination_policy (d : gset str) (fname dst : str) :
  destination d fname = Some (Some dst) ->
  allowed fname = true /\ safe_audio_name fname <> fname /\
  follows_policy d fname dst.
Proof.
  unfold destination, follows_policy. destruct (allowed fname); [|discriminate].
  cbn [negb]. cbv zeta. unfold str_eqb, exists_in.
  destruct (decide (safe_audio_name fname = fname)) as [E|E].
  - rewrite bool_decide_eq_true_2 by assumption. discriminate.
  - rewrite bool_decide_eq_false_2 by assumption.
    destruct (decide (safe_audio_name fname ∈ d)) as [Hin|Hout].
    + rewrite bool_decide_eq_true_2 by assumption.
      destruct (find_free _ _ _ _ _) as [c|] eqn:Ef; [|discriminate].
      intros [= <-]. apply find_free_spec in Ef as [k [-> [Hc Hall]]].
      repeat split; try assumption. right. split; [assumption|].
      exists (1 + k). repeat split; [lia|].
      intros j Hj. replace j with (1 + (j - 1)) by lia. apply Hall. lia.
    + rewrite bool_decide_eq_false_2 by assumption. intros [= <-].
      repeat split; try assumption. now left.
Qed.

(** ** The renamer: one pass over a directory *)


Lemma rename_dir_total (fails : str -> bool) (d : gset str) (files : list str) :
  exists res, rename_dir fails d files = Some res.
Proof.
  revert d. induction files as [|fname rest IH]; intros d; simpl; [eauto|].
  destruct (destination d fname) as [[dst|]|] eqn:E.
  - destruct (fails fname); [eauto|].
    destruct (IH ({[dst]} ∪ (d ∖ {[fname]}))) as [[[d' log] r] ->]. eauto.
  - apply IH.
  - now apply destination_total in E.
Qed.



Lemma final_name_other (log : list (str * str)) (fname : str) :
  fname ∉ map fst log -> final_name log fname = fname.
Proof.
  induction log as [|[s t] log IH]; simpl; [reflexivity|]. intros H.
  apply not_elem_of_cons in H as [H1 H2]. unfold str_eqb.
  rewrite bool_decide_eq_false_2 by congruence. now apply IH.
Qed.







(** ** Sorting *)

Local Open Scope N_scope.

Lemma str_leb_total (a b : str) : str_leb a b = true \/ str_leb b a = true.
Proof.
  revert b. induction a as [|x a IH]; intros [|y b]; simpl; auto.
  destruct (N.compare_spec x y) as [->|H|H].
  - rewrite N.ltb_irrefl, N.eqb_refl. simpl. apply IH.
  - left. apply N.ltb_lt in H. now rewrite H.
  - right. apply N.ltb_lt in H. now rewrite H.
Qed.

Local Close Scope N_scope.

Lemma str_le_total : Total str_le.
Proof.
  intros a b. unfold str_le.
  destruct (str_leb_total a b) as [H|H]; rewrite H; [left|right]; exact I.
Qed.

Lemma sort_sorted (l : list str) : Sorted str_le (sort l).
Proof. apply (@Sorted_merge_sort _ str_le _ str_le_total). Qed.

Lemma sort_perm (l : list str) : sort l ≡ₚ l.
Proof. apply merge_sort_Permutation. Qed.

Lemma sort_nil_inv (l : list str) : sort l = [] -> l = [].
Proof.
  intros E. apply Permutation_nil_r. rewrite <- E. symmetry. apply sort_perm.
Qed.

(** ** The dictionary *)

Lemma dict_get_set_eq (k : str) (v : json) (d : list (str * json)) :
  dict_get k (dict_set k v d) = Some v.
Proof.
  induction d as [|[k' v'] d IH]; simpl; unfold str_eqb.
  - now rewrite (bool_decide_eq_true_2 (k = k) eq_refl).
  - destruct (decide (k' = k)) as [E|E].
    + rewrite (bool_decide_eq_true_2 _ E). simpl. unfold str_eqb.
      now rewrite (bool_decide_eq_true_2 _ E).
    + rewrite (bool_decide_eq_false_2 _ E). simpl. unfold str_eqb.
      now rewrite (bool_decide_eq_false_2 _ E).
Qed.

Lemma dict_get_set_ne (k k0 : str) (v : json) (d : list (str * json)) :
  k0 <> k -> dict_get k0 (dict_set k v d) = dict_get k0 d.
Proof.
  intros Hne. induction d as [|[k' v'] d IH]; simpl; unfold str_eqb.
  - rewrite bool_decide_eq_false_2; [reflexivity|congruence].
  - destruct (decide (k' = k)) as [E|E].
    + rewrite (bool_decide_eq_true_2 _ E). simpl. unfold str_eqb. subst k'.
      rewrite !(bool_decide_eq_false_2 (k = k0)) by congruence. reflexivity.
    + rewrite (bool_decide_eq_false_2 _ E). simpl. now rewrite IH.
Qed.

Lemma dict_get_keys (k : str) (d : list (str * json)) :
  k ∈ keys d <-> exists v, dict_get k d = Some v.
Proof.
  induction d as [|[k' v'] d IH]; simpl.
  - split; [intros H; now apply elem_of_nil in H|intros [v H]; discriminate].
  - unfold str_eqb. destruct (decide (k' = k)) as [E|E].
    + rewrite (bool_decide_eq_true_2 _ E). split; [eauto|]. intros _. subst. left.
    + rewrite (bool_decide_eq_false_2 _ E). rewrite <- IH. split.
      * intros H. apply elem_of_cons in H as [H|H]; [congruence|assumption].
      * intros H. now right.
Qed.

(** ** The catalog builder *)

Lemma extended_app (o : option json) (a b : list str) :
  extended (extended o a) b = extended o (a ++ b).
Proof.
  destruct a as [|x a]; [reflexivity|]. destruct b as [|y b]; simpl.
  - now rewrite app_nil_r.
  - rewrite map_app. simpl. now rewrite <- app_assoc.
Qed.

Section Catalog.
Variable IGNORE_DIRS : list str.

Lemma part_other (key name : str) (path files : list str) :
  last path = Some name -> key <> name -> part IGNORE_DIRS key (path, files) = [].
Proof.
  intros E Hne. unfold part. simpl. rewrite E.
  rewrite bool_decide_eq_false_2; [reflexivity|congruence].
Qed.

Lemma visit_done (b : str) (data : list (str * json)) (path files : list str) :
  groups_ok b data -> part IGNORE_DIRS base_key (path, files) = [] ->
  exists data', visit IGNORE_DIRS data path files = Done data' /\
    groups_ok b data' /\
    forall key, key <> base_key ->
      dict_get key data'
      = extended (dict_get key data) (part IGNORE_DIRS key (path, files)).
Proof.
  intros Hok Hbase. unfold visit.
  destruct (last path) as [name|] eqn:El.
  2:{ exists data. repeat split; try apply Hok. intros key _. unfold part. simpl.
      rewrite El. now rewrite bool_decide_eq_false_2. }
  destruct (pruned IGNORE_DIRS name) eqn:Ep.
  { exists data. repeat split; try apply Hok. intros key _. unfold part. simpl.
    rewrite El. destruct (decide (name = key)) as [<-|Hne].
    - now rewrite Ep, andb_false_r.
    - rewrite bool_decide_eq_false_2; [reflexivity|congruence]. }
  assert (Epart : part IGNORE_DIRS name (path, files) = contribution path files).
  { unfold part. simpl. rewrite El, Ep.
    now rewrite (bool_decide_eq_true_2 _ eq_refl). }
  destruct (map (file_entry path) (List.filter allowed files)) as [|i items] eqn:Ei.
  { exists data. repeat split; try apply Hok. intros key _.
    destruct (decide (key = name)) as [->|Hne].
    - rewrite Epart. unfold contribution. now rewrite Ei.
    - now rewrite (part_other key name). }
  assert (Hc : contribution path files = sort (i :: items))
    by (unfold contribution; now rewrite Ei).
  assert (Hne0 : sort (i :: items) <> [])
    by (intros E; apply sort_nil_inv in E; discriminate).
  assert (Hnb : name <> base_key).
  { intros ->. rewrite Epart, Hc in Hbase. contradiction. }
  destruct Hok as [Hb Hgroups].
  assert (Hset :
    setdefault_extend data name (sort (i :: items))
    = Done (dict_set name
              (JArray (items_of (dict_get name data)
                       ++ map JString (sort (i :: items)))) data)).
  { unfold setdefault_extend. now destruct (Hgroups name Hnb) as [->|[l ->]]. }
  rewrite Hset. eexists. split; [reflexivity|]. split; [split|].
  - now rewrite dict_get_set_ne by congruence.
  - intros key Hk. destruct (decide (key = name)) as [->|Hne].
    + right. eexists. apply dict_get_set_eq.
    + rewrite dict_get_set_ne by assumption. now apply Hgroups.
  - intros key Hk. destruct (decide (key = name)) as [->|Hne].
    + rewrite dict_get_set_eq, Epart, Hc. unfold extended.
      destruct (sort (i :: items)); [contradiction|reflexivity].
    + rewrite dict_get_set_ne by assumption. now rewrite (part_other key name).
Qed.

Lemma visit_all_done (b : str) (data : list (str * json))
    (dirs : list (list str * list str)) :
  groups_ok b data ->
  Forall (fun dir => part IGNORE_DIRS base_key dir = []) dirs ->
  exists data', visit_all IGNORE_DIRS data dirs = Done data' /\
    groups_ok b data' /\
    forall key, key <> base_key ->
      dict_get key data'
      = extended (dict_get key data) (concat (map (part IGNORE_DIRS key) dirs)).
Proof.
  intros Hok Hall. revert data Hok.
  induction Hall as [|[path files] rest Hd _ IH]; intros data Hok; simpl.
  - exists data. split; [reflexivity|]. split; [exact Hok|]. reflexivity.
  - destruct (visit_done b data path files Hok Hd) as [data1 [-> [Hok1 Hget1]]].
    destruct (IH data1 Hok1) as [data' [-> [Hok' Hget']]].
    exists data'. split; [reflexivity|]. split; [exact Hok'|].
    intros key Hk. now rewrite Hget', Hget1, extended_app.
Qed.

Lemma catalog_groups (base_url : str) (root : node) :
  Forall (fun dir => part IGNORE_DIRS base_key dir = []) (walk IGNORE_DIRS [] root) ->
  exists data, catalog IGNORE_DIRS base_url root = Done data /\
    dict_get base_key data = Some (JString base_url) /\
    forall key, key <> base_key ->
      dict_get key data
      = extended None (concat (map (part IGNORE_DIRS key) (walk IGNORE_DIRS [] root))).
Proof.
  intros Hall. unfold catalog.
  assert (Hok : groups_ok base_url [(base_key, JString base_url)]).
  { split; [reflexivity|]. intros key Hk. left. simpl. unfold str_eqb.
    rewrite bool_decide_eq_false_2; [reflexivity|congruence]. }
  destruct (visit_all_done _ _ _ Hok Hall) as [data [E [Hok' Hget]]].
  exists data. split; [exact E|]. split; [apply Hok'|].
  intros key Hk. rewrite (Hget key Hk). simpl. unfold str_eqb.
  rewrite bool_decide_eq_false_2; [reflexivity|congruence].
Qed.
End Catalog.

(** ** The walk and the tree *)

Section Walk.
Variable IGNORE_DIRS : list str.

Lemma walk_folder (path : list str) (es : list (str * node)) :
  walk IGNORE_DIRS path (Folder es)
  = (path, file_names es) :: flat_map (below IGNORE_DIRS path) es.
Proof.
  cbn [walk]. f_equal. induction es as [|[n sub] es IH]; [reflexivity|].
  cbn [flat_map]. rewrite <- IH. reflexivity.
Qed.

Lemma walk_sound (t : node) :
  forall pre dir, dir ∈ walk IGNORE_DIRS pre t ->
    exists rel es, fst dir = pre ++ rel /\ reach t rel (Folder es) /\
      snd dir = file_names es /\ walked IGNORE_DIRS rel.
Proof.
  induction t as [c|es IH] using node_induction; intros pre dir Hin.
  - now apply elem_of_nil in Hin.
  - rewrite walk_folder in Hin. apply elem_of_cons in Hin as [->|Hin].
    + exists [], es. simpl. rewrite app_nil_r.
      repeat split; constructor.
    + apply list_elem_of_In, in_flat_map in Hin as [[n sub] [He Hd]].
      unfold below in Hd. simpl in Hd.
      destruct (is_folder sub) eqn:Hf; [|contradiction].
      destruct (pruned IGNORE_DIRS n) eqn:Hp; [contradiction|]. simpl in Hd.
      rewrite Forall_forall in IH. apply list_elem_of_In in He.
      destruct (IH _ He (pre ++ [n]) dir) as [rel [es' [E [Hr [Hs Hw]]]]].
      { now apply list_elem_of_In. }
      exists (n :: rel), es'. repeat split.
      * rewrite E. now rewrite <- app_assoc.
      * now apply reach_down with sub.
      * exact Hs.
      * now constructor.
Qed.

Lemma walk_complete (t : node) (rel : list str) (x : node) :
  reach t rel x -> forall pre es, x = Folder es -> walked IGNORE_DIRS rel ->
    (pre ++ rel, file_names es) ∈ walk IGNORE_DIRS pre t.
Proof.
  induction 1 as [t|es0 n sub x p He Hr IH]; intros pre es -> Hw.
  - rewrite app_nil_r, walk_folder. left.
  - apply Forall_cons in Hw as [Hn Hw].
    rewrite walk_folder. right.
    apply list_elem_of_In, in_flat_map. exists (n, sub).
    split; [now apply list_elem_of_In|].
    unfold below. simpl. rewrite Hn.
    assert (Hf : is_folder sub = true).
    { inversion Hr; subst; [reflexivity|reflexivity]. }
    rewrite Hf. simpl. apply list_elem_of_In.
    replace (pre ++ n :: p) with ((pre ++ [n]) ++ p) by now rewrite <- app_assoc.
    now apply IH.
Qed.
End Walk.

(** ** The catalog: groups *)

Section CatalogClaims.
Variable IGNORE_DIRS : list str.

Lemma in_part (key s : str) (dir : list str * list str) :
  s ∈ part IGNORE_DIRS key dir <->
  last (fst dir) = Some key /\ pruned IGNORE_DIRS key = false /\
  exists f, f ∈ snd dir /\ allowed f = true /\ s = file_entry (fst dir) f.
Proof.
  unfold part. destruct (decide (last (fst dir) = Some key)) as [E|E].
  - rewrite (bool_decide_eq_true_2 _ E).
    destruct (pruned IGNORE_DIRS key); simpl.
    + split; [intros H; now apply elem_of_nil in H|intros [_ [? _]]; discriminate].
    + unfold contribution. rewrite sort_perm. rewrite list_elem_of_fmap. split.
      * intros [f [-> Hf]]. apply list_elem_of_In, filter_In in Hf as [Hf Ha].
        repeat split; try assumption. exists f.
        repeat split; [now apply list_elem_of_In|assumption].
      * intros [_ [_ [f [Hf [Ha ->]]]]]. exists f. split; [reflexivity|].
        apply list_elem_of_In, filter_In. split; [now apply list_elem_of_In|assumption].
  - rewrite (bool_decide_eq_false_2 _ E). simpl.
    split; [intros H; now apply elem_of_nil in H|intros [? _]; contradiction].
Qed.

Lemma in_parts (key s : str) (dirs : list (list str * list str)) :
  s ∈ concat (map (part IGNORE_DIRS key) dirs) <->
  exists dir, dir ∈ dirs /\ s ∈ part IGNORE_DIRS key dir.
Proof.
  rewrite list_elem_of_In, in_concat. split.
  - intros [l [Hl Hs]]. apply in_map_iff in Hl as [dir [<- Hd]].
    exists dir. split; now apply list_elem_of_In.
  - intros [dir [Hd Hs]]. exists (part IGNORE_DIRS key dir). split.
    + apply in_map. now apply list_elem_of_In.
    + now apply list_elem_of_In.
Qed.

(** An entry of a group, traced back to its file in the tree. *)
Lemma in_group (root : node) (key s : str) :
  s ∈ concat (map (part IGNORE_DIRS key) (walk IGNORE_DIRS [] root)) <->
  exists path es f,
    s = file_entry path f /\ reach root path (Folder es) /\
    last path = Some key /\ walked IGNORE_DIRS path /\
    f ∈ file_names es /\ allowed f = true.
Proof.
  rewrite in_parts. split.
  - intros [dir [Hd Hs]]. apply in_part in Hs as [El [Hp [f [Hf [Ha ->]]]]].
    apply walk_sound in Hd as [rel [es [E [Hr [Es Hw]]]]]. simpl in E.
    rewrite E in *. rewrite Es in Hf. now exists rel, es, f.
  - intros [path [es [f [-> [Hr [El [Hw [Hf Ha]]]]]]]].
    exists (path, file_names es). split.
    + now apply (walk_complete IGNORE_DIRS root path (Folder es) Hr []).
    + apply in_part. simpl. repeat split; try assumption.
      * unfold walked in Hw. rewrite Forall_forall in Hw. apply Hw.
        apply last_Some in El as [l' ->]. apply elem_of_app. right. left.
      * now exists f.
Qed.

Lemma no_base_parts (root : node) :
  no_base_group IGNORE_DIRS root ->
  Forall (fun dir => part IGNORE_DIRS base_key dir = []) (walk IGNORE_DIRS [] root).
Proof.
  intros H. apply Forall_forall. intros dir Hd.
  destruct (part IGNORE_DIRS base_key dir) as [|s l] eqn:E; [reflexivity|].
  exfalso. assert (Hs : s ∈ part IGNORE_DIRS base_key dir) by (rewrite E; left).
  apply in_part in Hs as [El [_ [f [Hf [Ha _]]]]].
  apply walk_sound in Hd as [rel [es [Ep [Hr [Es Hw]]]]]. simpl in Ep.
  rewrite Ep in El. rewrite Es in Hf.
  assert (Hin : In f (List.filter allowed (file_names es))).
  { apply filter_In. split; [now apply list_elem_of_In|assumption]. }
  rewrite (H rel es Hr El Hw) in Hin. contradiction.
Qed.

Lemma part_sorted (key : str) (dir : list str * list str) :
  Sorted str_le (part IGNORE_DIRS key dir).
Proof.
  unfold part. destruct (_ && _); [apply sort_sorted|constructor].
Qed.

Lemma concat_single {A : Type} (pre post : list (list A)) (p : list A) :
  Forall (fun l => l = []) pre -> Forall (fun l => l = []) post ->
  concat (pre ++ p :: post) = p.
Proof.
  intros Hpre Hpost. rewrite concat_app. simpl.
  assert (E : forall ls : list (list A), Forall (fun l => l = []) ls -> concat ls = []).
  { induction 1 as [|l ls -> _ IH]; [reflexivity|]. exact IH. }
  now rewrite (E pre), (E post), app_nil_r by assumption.
Qed.
End CatalogClaims.

Lemma no_base_groupb_parts (IGNORE_DIRS : list str) (root : node) :
  no_base_groupb IGNORE_DIRS root = true ->
  Forall (fun dir => part IGNORE_DIRS base_key dir = []) (walk IGNORE_DIRS [] root).
Proof.
  unfold no_base_groupb. intros H. apply Forall_forall. intros dir Hd.
  rewrite forallb_forall in H. apply list_elem_of_In in Hd.
  specialize (H dir Hd). now destruct (part IGNORE_DIRS base_key dir).
Qed.

Lemma no_base_group_decided (IGNORE_DIRS : list str) (root : node) :
  no_base_group IGNORE_DIRS root -> no_base_groupb IGNORE_DIRS root = true.
Proof.
  intros H. apply no_base_parts in H. unfold no_base_groupb.
  apply forallb_forall. intros dir Hd. rewrite Forall_forall in H.
  now rewrite (H dir) by now apply list_elem_of_In.
Qed.

(** C3, as stated, fails: a folder [kicks] holding [z.wav] and a nested
    folder [kicks] holding [a.wav] give the group [kicks] the list
    [/kicks/z.wav], [/kicks/kicks/a.wav], which is not ascending. *)
Lemma merged_group_not_sorted :
  catalog IGNORE_DIRS_server localhost_url nested_kicks
  = Done [(base_key, JString localhost_url);
          (py "kicks", JArray (map JString [py "/kicks/z.wav";
                                            py "/kicks/kicks/a.wav"]))]
  /\ ~ Sorted str_le [py "/kicks/z.wav"; py "/kicks/kicks/a.wav"].
Proof.
  split; [vm_compute; reflexivity|].
  intros H. apply Sorted_inv in H as [_ H]. apply HdRel_inv in H.
  vm_compute in H. exact H.
Qed.

(** C3, amended: the list under a group key is the concatenation, in the
    order of the tree walk, of the lists the directories with that base
    name contribute, each of them sorted ascending; when one directory
    alone contributes, the list as a whole is sorted ascending. *)
Theorem catalog_group_is_sorted_parts (IGNORE_DIRS : list str)
    (base_url : str) (root : node) :
  no_base_groupb IGNORE_DIRS root = true ->
  exists data,
    catalog IGNORE_DIRS base_url root = Done data /\
    forall key items, dict_get key data = Some (JArray items) ->
      let parts := map (part IGNORE_DIRS key) (walk IGNORE_DIRS [] root) in
      items = map JString (concat parts) /\
      Forall (Sorted str_le) parts /\
      forall pre p post, parts = pre ++ p :: post ->
        Forall (fun l => l = []) pre -> Forall (fun l => l = []) post ->
        items = map JString p /\ Sorted str_le p.
Proof.
  intros H. apply no_base_groupb_parts in H.
  destruct (catalog_groups IGNORE_DIRS base_url root H) as [data [E [Hb Hget]]].
  exists data. split; [exact E|]. intros key items Hk parts.
  assert (Hne : key <> base_key) by (intros ->; congruence).
  assert (Ei : items = map JString (concat parts)).
  { rewrite (Hget key Hne) in Hk. fold parts in Hk. unfold extended in Hk.
    destruct (concat parts); [discriminate|]. now injection Hk as <-. }
  split; [exact Ei|]. split.
  - apply Forall_forall. intros l Hl. apply list_elem_of_fmap in Hl as [dir [-> _]].
    apply part_sorted.
  - intros pre p post Ep Hpre Hpost. rewrite Ei, Ep, concat_single by assumption.
    split; [reflexivity|].
    assert (Hp : p ∈ parts) by (rewrite Ep; apply elem_of_app; right; left).
    apply list_elem_of_fmap in Hp as [dir [-> _]]. apply part_sorted.
Qed.

Lemma catalog_group_is_sorted_parts_witness :
  exists data,
    catalog IGNORE_DIRS_server localhost_url nested_kicks = Done data /\
    forall key items, dict_get key data = Some (JArray items) ->
      items = map JString
                (concat (map (part IGNORE_DIRS_server key)
                           (walk IGNORE_DIRS_server [] nested_kicks))).
Proof.
  destruct (catalog_group_is_sorted_parts IGNORE_DIRS_server localhost_url
              nested_kicks) as [data [E H]].
  - vm_compute. reflexivity.
  - exists data. split; [exact E|]. intros key items Hk. now apply H.
Defined.

(** C6, as stated, fails: the root directory is walked, is neither hidden
    nor ignored and holds a qualifying file, yet it gives no group. *)
Lemma root_directory_gives_no_group :
  py "samples" ∈ described_group_names IGNORE_DIRS_server (py "samples") root_with_file /\
  exists data,
    catalog IGNORE_DIRS_server localhost_url root_with_file = Done data /\
    py "samples" ∉ keys data.
Proof.
  split; [vm_compute; left|].
  exists [(base_key, JString localhost_url)]. split; [vm_compute; reflexivity|].
  intros H. apply list_elem_of_singleton in H. vm_compute in H. discriminate.
Qed.

(** C6, amended: when no walked directory named [_base] holds a
    qualifying file, the catalog is built and: every entry under a group
    is [/] followed by the path of a file that lies in a walked directory
    other than the root whose base name is the group and whose extension,
    lower-cased, is allowed; the keys are [_base] and exactly the base
    names of the walked directories other than the root that hold a
    qualifying file; so base names whose directories hold no qualifying
    file are no keys. *)
Theorem catalog_groups_are_directories (IGNORE_DIRS : list str)
    (base_url : str) (root : node) :
  no_base_groupb IGNORE_DIRS root = true ->
  exists data,
    catalog IGNORE_DIRS base_url root = Done data /\
    (forall key items e,
       dict_get key data = Some (JArray items) -> e ∈ items ->
       exists path es f,
         e = JString (file_entry path f) /\ reach root path (Folder es) /\
         last path = Some key /\ walked IGNORE_DIRS path /\
         f ∈ file_names es /\
         mem (lower (path_suffix f)) ALLOW_EXTS = true) /\
    (forall key,
       key ∈ keys data <->
       key = base_key \/
       exists path es f,
         reach root path (Folder es) /\ last path = Some key /\
         walked IGNORE_DIRS path /\ f ∈ file_names es /\ allowed f = true) /\
    (forall key,
       key <> base_key ->
       (forall path es,
          reach root path (Folder es) -> last path = Some key ->
          walked IGNORE_DIRS path ->
          List.filter allowed (file_names es) = []) ->
       key ∉ keys data).
Proof.
  intros H. apply no_base_groupb_parts in H.
  destruct (catalog_groups IGNORE_DIRS base_url root H) as [data [E [Hb Hget]]].
  assert (Hkeys : forall key,
    key ∈ keys data <->
    key = base_key \/
    exists path es f,
      reach root path (Folder es) /\ last path = Some key /\
      walked IGNORE_DIRS path /\ f ∈ file_names es /\ allowed f = true).
  { intros key. rewrite dict_get_keys. destruct (decide (key = base_key)) as [->|Hne].
    - split; [now left|]. intros _. eauto.
    - rewrite (Hget key Hne). unfold extended. split.
      + intros [v Hv]. right.
        destruct (concat _) as [|s l] eqn:Ec; [discriminate|].
        assert (Hs : s ∈ concat (map (part IGNORE_DIRS key) (walk IGNORE_DIRS [] root)))
          by (rewrite Ec; left).
        apply in_group in Hs as [path [es [f [_ Hrest]]]]. now exists path, es, f.
      + intros [?|[path [es [f Hrest]]]]; [contradiction|].
        assert (Hs : file_entry path f
                     ∈ concat (map (part IGNORE_DIRS key) (walk IGNORE_DIRS [] root))).
        { apply in_group. now exists path, es, f. }
        destruct (concat _); [now apply elem_of_nil in Hs|eauto]. }
  exists data. split; [exact E|]. split; [|split].
  - intros key items e Hk He.
    assert (Hne : key <> base_key) by (intros ->; congruence).
    rewrite (Hget key Hne) in Hk. unfold extended in Hk.
    destruct (concat _) as [|s l] eqn:Ec; [discriminate|]. injection Hk as <-.
    change (JString s :: map JString l) with (map JString (s :: l)) in He.
    apply list_elem_of_fmap in He as [s' [-> Hs']]. rewrite <- Ec in Hs'.
    apply in_group in Hs' as [path [es [f [-> Hrest]]]]. now exists path, es, f.
  - exact Hkeys.
  - intros key Hne Hnone Hin. apply Hkeys in Hin as [?|[path [es [f Hrest]]]];
      [contradiction|].
    destruct Hrest as [Hr [El [Hw [Hf Ha]]]].
    assert (Hi : In f (List.filter allowed (file_names es))).
    { apply filter_In. split; [now apply list_elem_of_In|assumption]. }
    rewrite (Hnone path es Hr El Hw) in Hi. contradiction.
Qed.

Lemma catalog_groups_are_directories_witness :
  exists data,
    catalog IGNORE_DIRS_server localhost_url nested_kicks = Done data /\
    (py "kicks" ∈ keys data <->
     py "kicks" = base_key \/
     exists path es f,
       reach nested_kicks path (Folder es) /\ last path = Some (py "kicks") /\
       walked IGNORE_DIRS_server path /\ f ∈ file_names es /\ allowed f = true).
Proof.
  destruct (catalog_groups_are_directories IGNORE_DIRS_server localhost_url
              nested_kicks) as [data [E [_ [H _]]]].
  - vm_compute. reflexivity.
  - exists data. split; [exact E|apply H].
Defined.

(** ** The serialized catalog *)

Local Open Scope N_scope.

Lemma isspace_range (c : N) : 33 <= c < 133 -> isspace c = false.
Proof.
  intros H. unfold isspace.
  repeat (apply orb_false_intro);
    try (apply andb_false_iff; right; apply N.leb_gt; lia);
    try (apply N.eqb_neq; lia).
  apply andb_false_iff; left; apply N.leb_gt; lia.
Qed.

Lemma hex_digit_range (n : N) : n < 16 -> 33 <= hex_digit n < 133.
Proof.
  intros H. unfold hex_digit. destruct (n <? 10) eqn:E.
  - apply N.ltb_lt in E. lia.
  - apply N.ltb_ge in E. lia.
Qed.

Lemma escape_char_space (c x : N) :
  isspace c = true -> c ∈ escape_char x -> c = x.
Proof.
  intros Hc Hin. unfold escape_char in Hin.
  assert (Hr : forall l : list N, Forall (fun y => 33 <= y < 133) l -> c ∈ l -> False).
  { intros l Hl Hcl. rewrite Forall_forall in Hl. specialize (Hl c Hcl).
    apply isspace_range in Hl. congruence. }
  repeat match type of Hin with
         | _ ∈ (if ?b then _ else _) => destruct b eqn:?
         end;
    first
      [ now apply list_elem_of_singleton in Hin
      | exfalso; eapply Hr; [|exact Hin];
        repeat (first [apply Forall_nil_2 | apply Forall_cons_2]);
        first
          [ lia
          | apply hex_digit_range;
            match goal with H : (x <? 32) = true |- _ => apply N.ltb_lt in H end;
            first [ apply N.Div0.div_lt_upper_bound; lia
                  | apply N.mod_lt; lia ] ] ].
Qed.

Lemma in_join (sep c : N) (parts : list str) :
  c ∈ join sep parts -> c = sep \/ exists p, p ∈ parts /\ c ∈ p.
Proof.
  induction parts as [|p rest IH]; [intros H; now apply elem_of_nil in H|].
  destruct rest as [|q rest].
  - simpl. intros H. right. exists p. split; [left|assumption].
  - change (join sep (p :: q :: rest)) with (p ++ sep :: join sep (q :: rest)).
    intros H. apply elem_of_app in H as [H|H].
    + right. exists p. split; [left|assumption].
    + apply elem_of_cons in H as [H|H]; [now left|].
      destruct (IH H) as [?|[p' [Hp' Hc]]]; [now left|].
      right. exists p'. split; [now right|assumption].
Qed.

Lemma space_not_in (c : N) (l : list N) :
  isspace c = true -> Forall (fun y => 33 <= y < 133) l -> c ∉ l.
Proof.
  intros Hc Hl Hin. rewrite Forall_forall in Hl. specialize (Hl c Hin).
  apply isspace_range in Hl. congruence.
Qed.

Lemma uint_str_range (d : Decimal.uint) :
  Forall (fun y => 33 <= y < 133) (uint_str d).
Proof. induction d; simpl; constructor; try assumption; lia. Qed.

Lemma str_of_Z_range (z : Z) : Forall (fun y => 33 <= y < 133) (str_of_Z z).
Proof.
  unfold str_of_Z, str_of_nat. destruct (z <? 0)%Z.
  - constructor; [unfold dash; lia|apply uint_str_range].
  - apply uint_str_range.
Qed.

Lemma encode_basestring_space (c : N) (s : str) :
  isspace c = true -> c ∈ encode_basestring s -> c ∈ s.
Proof.
  intros Hc Hin. unfold encode_basestring in Hin.
  apply elem_of_cons in Hin as [->|Hin]; [discriminate|].
  apply elem_of_app in Hin as [Hin|Hin].
  - apply list_elem_of_In, in_flat_map in Hin as [x [Hx Hcx]].
    apply list_elem_of_In in Hcx. apply (escape_char_space c x Hc) in Hcx.
    subst. now apply list_elem_of_In.
  - apply list_elem_of_singleton in Hin. subst. discriminate.
Qed.

(** Whitespace in the output was in one of the strings: none is inserted. *)
Lemma dumps_space (c : N) (v : json) :
  isspace c = true -> c ∈ dumps v -> exists s, s ∈ texts v /\ c ∈ s.
Proof.
  intros Hc. induction v as [|b|z|r|s|items IH|members IH] using json_induction;
    cbn [dumps texts]; intros Hin.
  - exfalso. revert Hin. apply space_not_in; [assumption|].
    vm_compute. repeat constructor; discriminate.
  - exfalso. revert Hin. apply space_not_in; [assumption|].
    destruct b; vm_compute; repeat constructor; discriminate.
  - exfalso. revert Hin. apply space_not_in; [assumption|apply str_of_Z_range].
  - exists r. split; [left|assumption].
  - exists s. split; [left|]. now apply encode_basestring_space.
  - apply elem_of_cons in Hin as [->|Hin]; [discriminate|].
    apply elem_of_app in Hin as [Hin|Hin];
      [|apply list_elem_of_singleton in Hin; subst; discriminate].
    apply in_join in Hin as [->|[p [Hp Hcp]]]; [discriminate|].
    apply list_elem_of_fmap in Hp as [x [-> Hx]].
    rewrite Forall_forall in IH. destruct (IH x Hx Hcp) as [s [Hs Hcs]].
    exists s. split; [|assumption].
    apply list_elem_of_In, in_flat_map. exists x. split; now apply list_elem_of_In.
  - apply elem_of_cons in Hin as [->|Hin]; [discriminate|].
    apply elem_of_app in Hin as [Hin|Hin];
      [|apply list_elem_of_singleton in Hin; subst; discriminate].
    apply in_join in Hin as [->|[p [Hp Hcp]]]; [discriminate|].
    apply list_elem_of_fmap in Hp as [kv [-> Hkv]].
    apply elem_of_app in Hcp as [Hk|Hv].
    + exists (fst kv). split; [|now apply encode_basestring_space].
      apply list_elem_of_In, in_flat_map. exists kv.
      split; [now apply list_elem_of_In|now left].
    + apply elem_of_cons in Hv as [->|Hv]; [discriminate|].
      rewrite Forall_forall in IH. destruct (IH kv Hkv Hv) as [s [Hs Hcs]].
      exists s. split; [|assumption].
      apply list_elem_of_In, in_flat_map. exists kv.
      split; [now apply list_elem_of_In|]. right. now apply list_elem_of_In.
Qed.

Lemma utf8_encode_snoc (s : str) (c : N) (b : list N) :
  c < 128 -> utf8_encode (s ++ [c]) = Some b -> last b = Some c.
Proof.
  intros Hc. revert b. induction s as [|x s IH]; intros b; simpl.
  - unfold utf8_char. apply N.ltb_lt in Hc. rewrite Hc. now intros [= <-].
  - destruct (utf8_char x) as [bx|]; [|discriminate].
    destruct (utf8_encode (s ++ [c])) as [br|]; [|discriminate].
    intros [= <-]. specialize (IH br eq_refl).
    rewrite last_app, IH. reflexivity.
Qed.

Lemma dumps_object_snoc (members : list (str * json)) :
  exists text, dumps (JObject members) = text ++ [125].
Proof. cbn [dumps]. eexists (123 :: _). reflexivity. Qed.

Lemma find_put_eq (n : str) (x : node) (es : list (str * node)) :
  find_entry n (put_entry n x es) = Some x.
Proof.
  induction es as [|[n' x'] es IH]; simpl; unfold str_eqb.
  - now rewrite (bool_decide_eq_true_2 (n = n) eq_refl).
  - destruct (decide (n' = n)) as [E|E].
    + rewrite (bool_decide_eq_true_2 _ E). simpl. unfold str_eqb.
      now rewrite (bool_decide_eq_true_2 _ E).
    + rewrite (bool_decide_eq_false_2 _ E). simpl. unfold str_eqb.
      now rewrite (bool_decide_eq_false_2 _ E).
Qed.

Lemma find_put_ne (n n0 : str) (x : node) (es : list (str * node)) :
  n0 <> n -> find_entry n0 (put_entry n x es) = find_entry n0 es.
Proof.
  intros Hne. induction es as [|[n' x'] es IH]; simpl; unfold str_eqb.
  - rewrite bool_decide_eq_false_2; [reflexivity|congruence].
  - destruct (decide (n' = n)) as [E|E].
    + rewrite (bool_decide_eq_true_2 _ E). simpl. unfold str_eqb. subst n'.
      rewrite !(bool_decide_eq_false_2 (n = n0)) by congruence. reflexivity.
    + rewrite (bool_decide_eq_false_2 _ E). simpl. now rewrite IH.
Qed.

Local Close Scope N_scope.

(** C9, as stated, fails: nothing is written after the closing brace, so
    the file does not end with a newline. *)
Lemma catalog_file_not_newline_terminated :
  exists content,
    find_entry JSON_NAME
      (entries_of (fst (generate_json IGNORE_DIRS_server false (fun _ => [])
                          localhost_url (Folder []))))
    = Some (File content) /\
    content = py "{" ++ [34%N] ++ py "_base" ++ [34%N] ++ py ":" ++ [34%N]
              ++ py "http://localhost:5432/" ++ [34%N] ++ py "}" /\
    last content <> Some 10%N.
Proof.
  eexists. split; [vm_compute; reflexivity|]. split; [reflexivity|].
  vm_compute. discriminate.
Qed.

(** C9, amended: when the catalog is built, [strudel.json] is not a
    folder, the write succeeds and the text can be encoded, the file
    [strudel.json] holds, whatever it held before, the UTF-8 encoding of
    the compact serialization: whitespace occurs in it only inside the
    keys and entries themselves, its last byte is the closing brace (no
    newline is appended), and no other entry of the root changes. *)
Theorem catalog_file_is_compact_utf8 (IGNORE_DIRS : list str)
    (left_behind : str -> list N) (base_url : str) (root : node) :
  no_base_groupb IGNORE_DIRS root = true ->
  (forall es, find_entry JSON_NAME (entries_of root) <> Some (Folder es)) ->
  exists data,
    catalog IGNORE_DIRS base_url root = Done data /\
    forall body, utf8_encode (dumps (JObject data)) = Some body ->
      let result := generate_json IGNORE_DIRS false left_behind base_url root in
      snd result = Done tt /\
      find_entry JSON_NAME (entries_of (fst result)) = Some (File body) /\
      (forall n, n <> JSON_NAME ->
         find_entry n (entries_of (fst result)) = find_entry n (entries_of root)) /\
      last body = Some 125%N /\
      last body <> Some 10%N /\
      forall c, isspace c = true -> c ∈ dumps (JObject data) ->
        exists s, s ∈ texts (JObject data) /\ c ∈ s.
Proof.
  intros Hb Hnf. apply no_base_groupb_parts in Hb.
  destruct (catalog_groups IGNORE_DIRS base_url root Hb) as [data [E _]].
  exists data. split; [exact E|]. intros body Hbody result.
  assert (Hres : result
                 = (Folder (put_entry JSON_NAME (File body) (entries_of root)), Done tt)).
  { unfold result, generate_json, write_text. rewrite E, Hbody.
    destruct (find_entry JSON_NAME (entries_of root)) as [[c|es]|] eqn:Ef;
      try reflexivity.
    exfalso. now apply (Hnf es). }
  assert (Hlast : last body = Some 125%N).
  { destruct (dumps_object_snoc data) as [text Et]. rewrite Et in Hbody.
    apply utf8_encode_snoc in Hbody; [assumption|reflexivity]. }
  rewrite Hres. cbn [fst snd entries_of].
  split; [reflexivity|]. split; [apply find_put_eq|].
  split; [intros n Hn; now apply find_put_ne|]. split; [exact Hlast|].
  split; [rewrite Hlast; discriminate|].
  intros c Hc Hin. now apply dumps_space.
Qed.

Lemma catalog_file_is_compact_utf8_witness :
  exists body,
    find_entry JSON_NAME
      (entries_of (fst (generate_json IGNORE_DIRS_server false (fun _ => [])
                          localhost_url nested_kicks)))
    = Some (File body) /\ last body = Some 125%N.
Proof.
  destruct (catalog_file_is_compact_utf8 IGNORE_DIRS_server (fun _ => [])
              localhost_url nested_kicks) as [data [E H]].
  - vm_compute. reflexivity.
  - intros es. vm_compute. discriminate.
  - destruct (utf8_encode (dumps (JObject data))) as [body|] eqn:Eb.
    + exists body. destruct (H body eq_refl) as [_ [Hf [_ [Hl _]]]]. now split.
    + exfalso. vm_compute in E. injection E as <-. vm_compute in Eb. discriminate.
Defined.

(** ** The tree renamer ends *)


Lemma rename_files_total (IGNORE_DIRS : list str) (fails : list str -> str -> bool)
    (t : node) :
  forall path, exists res, rename_files IGNORE_DIRS fails path t = Some res.
Proof.
  induction t as [c|es H] using node_induction; intros path; [simpl; eauto|].
  cbn [rename_files].
  destruct (rename_dir_total (fails path) (entry_names es) (file_names es))
    as [[[d' log] r] ->].
  destruct r as [[]|e]; [|eauto].
  match goal with
  | |- exists res, match ?g es with _ => _ end = Some res =>
      assert (Hgo : exists res, g es = Some res)
  end.
  { induction H as [|[n sub] rest Hsub _ IH]; [eauto|].
    destruct IH as [[rest' r] IH]. simpl in Hsub. rewrite IH.
    destruct (is_folder sub && negb (pruned IGNORE_DIRS n)); [|eauto].
    destruct (Hsub (path ++ [n])) as [[sub' [[]|e]] ->]; eauto. }
  destruct Hgo as [[es' r] ->]. eauto.
Qed.

(** ** The request handler *)

Lemma dict_set_frame (k : str) (v : json) (d : list (str * json)) :
  List.filter (fun kv => negb (str_eqb (fst kv) k)) (dict_set k v d)
  = List.filter (fun kv => negb (str_eqb (fst kv) k)) d.
Proof.
  induction d as [|[k' v'] d IH]; simpl; unfold str_eqb.
  - now rewrite (bool_decide_eq_true_2 (k = k) eq_refl).
  - destruct (decide (k' = k)) as [E|E].
    + rewrite (bool_decide_eq_true_2 _ E). simpl. unfold str_eqb.
      now rewrite (bool_decide_eq_true_2 _ E).
    + rewrite (bool_decide_eq_false_2 _ E). simpl. unfold str_eqb.
      rewrite (bool_decide_eq_false_2 _ E). simpl. now f_equal.
Qed.

Lemma catalog_path_not_rebuild (p : str) :
  is_catalog_path p = true -> startswith (py "/rebuild") p = false.
Proof.
  unfold is_catalog_path, str_eqb. intros H. apply orb_true_iff in H as [H|H];
    apply bool_decide_eq_true_1 in H; subst; reflexivity.
Qed.

Section HandlerClaims.
Variable IGNORE_DIRS : list str.
Variable ROOT : list str.
Variable fails : list str -> str -> bool.
Variable write_fails : bool.
Variable left_behind : str -> list N.
Variable json_load : list N -> outcome json.
Variable guess_type : str -> option str.

Lemma do_GET_catalog (w : world) (req : request) :
  is_catalog_path (req_path req) = true ->
  do_GET IGNORE_DIRS ROOT fails write_fails left_behind json_load guess_type w req
  = Some (serve_strudel_json json_load w req, w).
Proof.
  intros H. unfold do_GET. now rewrite catalog_path_not_rebuild, H.
Qed.

(** C7, amended: on a catalog request whose file loads as an object, the
    served object has [_base] equal to ["http://" + Host + "/"] when the
    Host header is present and not empty, and to
    ["http://localhost:5432/"] when it is absent or empty; every other key
    keeps its value, and the other members keep their order. *)
Theorem served_base_follows_host (w : world) (req : request)
    (content : list N) (members : list (str * json)) :
  is_catalog_path (req_path req) = true ->
  find_entry JSON_NAME (entries_of (w_root w)) = Some (File content) ->
  json_load content = Done (JObject members) ->
  exists data,
    (forall body, utf8_encode (dumps (JObject data)) = Some body ->
       do_GET IGNORE_DIRS ROOT fails write_fails left_behind json_load guess_type
         w req
       = Some (Ok200 json_ctype body, w)) /\
    (forall h, req_host req = Some h -> h <> [] ->
       dict_get base_key data = Some (JString (py "http://" ++ h ++ py "/"))) /\
    (req_host req = None \/ req_host req = Some [] ->
       dict_get base_key data = Some (JString (py "http://localhost:5432/"))) /\
    (forall k, k <> base_key -> dict_get k data = dict_get k members) /\
    List.filter not_base data = List.filter not_base members.
Proof.
  intros Hp Hf Hl.
  exists (dict_set base_key (JString (py "http://" ++ host_of req ++ py "/")) members).
  split; [|split; [|split; [|split]]].
  - intros body Hb. rewrite do_GET_catalog by assumption.
    unfold serve_strudel_json. now rewrite Hf, Hl, Hb.
  - intros h Hh Hne. rewrite dict_get_set_eq. unfold host_of. rewrite Hh.
    now destruct h.
  - intros H. rewrite dict_get_set_eq. unfold host_of.
    now destruct H as [-> | ->].
  - intros k Hk. now apply dict_get_set_ne.
  - apply dict_set_frame.
Qed.
End HandlerClaims.

(** C7, as stated, fails: a Host header that is present and empty gives
    the default, not ["http://" + "" + "/"]. *)
Lemma empty_host_gets_default :
  exists body,
    do_GET IGNORE_DIRS_server samples_root (fun _ _ => false) false (fun _ => [])
      load_empty (fun _ => None) empty_catalog_world (Request (py "/") (Some []))
    = Some (Ok200 json_ctype body, empty_catalog_world) /\
    utf8_encode
      (dumps (JObject [(base_key, JString (py "http://localhost:5432/"))]))
    = Some body /\
    py "http://localhost:5432/" <> py "http://" ++ [] ++ py "/".
Proof.
  eexists. split; [vm_compute; reflexivity|]. split; [reflexivity|].
  vm_compute. discriminate.
Qed.

Lemma served_base_follows_host_witness :
  exists data,
    dict_get base_key data = Some (JString (py "http://192.168.1.5:5432/")) /\
    List.filter not_base data = List.filter not_base [(py "kicks", JArray [])].
Proof.
  destruct (served_base_follows_host IGNORE_DIRS_server samples_root
              (fun _ _ => false) false (fun _ => [])
              (fun _ => Done (JObject [(py "kicks", JArray [])])) (fun _ => None)
              empty_catalog_world
              (Request (py "/strudel.json") (Some (py "192.168.1.5:5432")))
              (py "{}") [(py "kicks", JArray [])])
    as [data [_ [Hh [_ [_ Hf]]]]].
  - reflexivity.
  - reflexivity.
  - reflexivity.
  - exists data. split; [|exact Hf].
    apply (Hh (py "192.168.1.5:5432")); [reflexivity|discriminate].
Defined.

Section ErrorClaims.
Variable IGNORE_DIRS : list str.
Variable ROOT : list str.
Variable fails : list str -> str -> bool.
Variable write_fails : bool.
Variable left_behind : str -> list N.
Variable json_load : list N -> outcome json.
Variable guess_type : str -> option str.


End ErrorClaims.


(** C1: the check compares strings, so a sibling of the root whose name
    begins with the root's name passes it: with the root [/srv/samples],
    the request [/../samples-private/secret.wav] is answered with the
    content of [/srv/samples-private/secret.wav], a file that is not below
    the root. *)
Theorem sibling_of_root_is_served (fails : list str -> str -> bool)
    (write_fails : bool) (left_behind : str -> list N)
    (json_load : list N -> outcome json) (guess_type : str -> option str) :
  let local := resolve samples_root (py "../samples-private/secret.wav") in
  local = [py "srv"; py "samples-private"; py "secret.wav"] /\
  below_path samples_root local = None /\
  do_GET IGNORE_DIRS_server samples_root fails write_fails left_behind json_load
    guess_type neighbour_world
    (Request (py "/../samples-private/secret.wav") None)
  = Some (Ok200 (default (py "application/octet-stream")
                   (guess_type (py "/srv/samples-private/secret.wav")))
            secret, neighbour_world).
Proof.
  split; [reflexivity|]. split; [reflexivity|]. reflexivity.
Qed.

(** * Further properties of the code *)

(** ** The walk *)

(** [os.walk] with the pruning of [dirs] visits exactly the folders that
    are reached from the root through folders that are neither hidden nor
    ignored, each with its own listing of files. *)
Theorem walk_visits_exactly (IGNORE_DIRS : list str) (root : node)
    (dir : list str * list str) :
  dir ∈ walk IGNORE_DIRS [] root <->
  exists rel es,
    dir = (rel, file_names es) /\ reach root rel (Folder es) /\
    walked IGNORE_DIRS rel.
Proof.
  split.
  - intros H. apply walk_sound in H as [rel [es [E [Hr [Es Hw]]]]].
    exists rel, es. destruct dir as [p f]. simpl in *. subst. now repeat split.
  - intros [rel [es [-> [Hr Hw]]]].
    now apply (walk_complete IGNORE_DIRS root rel (Folder es) Hr []).
Qed.

(** ** The sanitizer *)

(** The test [target_name == src.name] that makes the renamer skip a file:
    a name is left as it is exactly when its stem holds no whitespace and
    no two adjacent ['-']. *)
Theorem safe_audio_name_fixed_iff (fname : str) :
  path_name fname = fname ->
  (safe_audio_name fname = fname <->
   clean isspace (path_stem fname) /\ double_dash (path_stem fname) = false).
Proof.
  intros Hn. unfold safe_audio_name. split.
  - intros E. pose proof (name_stem_suffix (path_name fname)) as Es.
    rewrite Hn in Es at 1. fold (path_stem fname) (path_suffix fname) in Es.
    rewrite Es in E at 3. apply app_inv_tail in E. rewrite <- E.
    split; [apply sanitize_stem_clean|apply sanitize_stem_single].
  - intros [Hc Hd]. rewrite sanitize_stem_fix by assumption.
    unfold path_stem, path_suffix. rewrite <- name_stem_suffix. exact Hn.
Qed.

Lemma safe_audio_name_fixed_iff_witness :
  safe_audio_name (py "Kick-One.wav") = py "Kick-One.wav" <->
  clean isspace (path_stem (py "Kick-One.wav")) /\
  double_dash (path_stem (py "Kick-One.wav")) = false.
Proof. apply safe_audio_name_fixed_iff. reflexivity. Defined.

(** ** The renamer, one directory *)

Lemma destination_skip (d : gset str) (fname : str) :
  destination d fname = Some None <->
  allowed fname = false \/ safe_audio_name fname = fname.
Proof.
  unfold destination. destruct (allowed fname); cbn [negb].
  - unfold str_eqb. destruct (decide (safe_audio_name fname = fname)) as [E|E].
    + rewrite (bool_decide_eq_true_2 _ E). split; [now right|reflexivity].
    + rewrite (bool_decide_eq_false_2 _ E). split.
      * destruct (exists_in d _); [|discriminate].
        destruct (find_free _ _ _ _ _); discriminate.
      * intros [?|?]; [discriminate|contradiction].
  - split; [now left|reflexivity].
Qed.

(** A listing whose qualifying files all have sanitized names is left
    alone: nothing is renamed, whatever the directory holds besides. *)
Theorem rename_dir_leaves_sanitized (fails : str -> bool) (d : gset str)
    (files : list str) :
  (forall f, f ∈ files -> allowed f = true -> safe_audio_name f = f) ->
  rename_dir fails d files = Some (d, [], Done tt).
Proof.
  induction files as [|fname rest IH]; intros H; cbn [rename_dir]; [reflexivity|].
  assert (E : destination d fname = Some None).
  { apply destination_skip. destruct (allowed fname) eqn:Ha; [right|now left].
    apply H; [left|assumption]. }
  rewrite E. apply IH. intros f Hf. apply H. now right.
Qed.

Lemma rename_dir_leaves_sanitized_witness :
  rename_dir no_fail {[py "kick-one.wav"; py "notes one.txt"]}
    [py "kick-one.wav"; py "notes one.txt"]
  = Some ({[py "kick-one.wav"; py "notes one.txt"]}, [], Done tt).
Proof.
  apply rename_dir_leaves_sanitized. intros f Hf Ha.
  apply elem_of_cons in Hf as [->|Hf]; [reflexivity|].
  apply list_elem_of_singleton in Hf as ->. vm_compute in Ha. discriminate.
Defined.

(** Only qualifying files whose sanitized name differs are renamed, each
    to a name other than its own, and the names outside the listing stay
    in the directory. *)
Theorem rename_dir_renames_only_unsafe (fails : str -> bool) (d d' : gset str)
    (files : list str) (log : list (str * str)) (r : outcome unit) :
  NoDup files -> (forall f, f ∈ files -> f ∈ d) ->
  rename_dir fails d files = Some (d', log, r) ->
  (forall src dst, (src, dst) ∈ log ->
     src ∈ files /\ allowed src = true /\ safe_audio_name src <> src /\
     fails src = false /\ dst <> src) /\
  (forall n, n ∈ d -> n ∉ files -> n ∈ d').
Proof.
  intros Hnd. revert d d' log r.
  induction Hnd as [|fname rest Hnotin Hnd IH]; intros d d' log r Hsub;
    cbn [rename_dir].
  - intros [= <- <- _]. split; [|auto]. intros src dst H. now apply elem_of_nil in H.
  - assert (Hfd : fname ∈ d) by (apply Hsub; left).
    assert (Hrest : forall f, f ∈ rest -> f ∈ d) by (intros f Hf; apply Hsub; now right).
    destruct (destination d fname) as [[dst0|]|] eqn:Ed; [| |discriminate].
    + apply destination_policy in Ed as [Ha [Hne [Hfree _]]].
      destruct (fails fname) eqn:Hfail.
      * intros [= <- <- _]. split; [|auto].
        intros src dst H. now apply elem_of_nil in H.
      * destruct (rename_dir fails _ rest) as [[[d1 log1] r1]|] eqn:E; [|discriminate].
        intros [= <- <- _].
        assert (Hsub1 : forall f, f ∈ rest ->
                  f ∈ ({[dst0]} ∪ (d ∖ {[fname]}) : gset str)).
        { intros f Hf. specialize (Hrest f Hf).
          assert (f <> fname) by (intros ->; contradiction). set_solver. }
        destruct (IH _ _ _ _ Hsub1 E) as [Hlog Hkeep]. split.
        -- intros src dst H. apply elem_of_cons in H as [[= -> ->]|H].
           ++ repeat split; try assumption; [left|]. intros ->. contradiction.
           ++ destruct (Hlog src dst H) as [H1 H2]. split; [now right|exact H2].
        -- intros n Hn Hnf. apply Hkeep.
           ++ assert (n <> fname) by (intros ->; apply Hnf; left). set_solver.
           ++ intros Hin. apply Hnf. now right.
    + intros E. destruct (IH _ _ _ _ Hrest E) as [Hlog Hkeep]. split.
      * intros src dst H. destruct (Hlog src dst H) as [H1 H2].
        split; [now right|exact H2].
      * intros n Hn Hnf. apply Hkeep; [assumption|]. intros Hin. apply Hnf. now right.
Qed.

Lemma rename_dir_renames_only_unsafe_witness :
  py "sub" ∈ ({[py "snare-A-1.wav"; py "snare-A.wav"; py "sub"]} : gset (list N)).
Proof.
  destruct (rename_dir_renames_only_unsafe no_fail
              {[py "snare A.wav"; py "snare-A.wav"; py "sub"]}
              {[py "snare-A-1.wav"; py "snare-A.wav"; py "sub"]}
              [py "snare A.wav"; py "snare-A.wav"]
              [(py "snare A.wav", py "snare-A-1.wav")] (Done tt)) as [_ H].
  - apply NoDup_cons. split; [|apply NoDup_singleton].
    intros H. apply list_elem_of_singleton in H. vm_compute in H. discriminate.
  - intros f Hf. apply elem_of_cons in Hf as [->|Hf]; [set_solver|].
    apply list_elem_of_singleton in Hf as ->. set_solver.
  - vm_compute. reflexivity.
  - apply H; [set_solver|].
    intros Hin. apply elem_of_cons in Hin as [Hin|Hin]; [vm_compute in Hin; discriminate|].
    apply list_elem_of_singleton in Hin. vm_compute in Hin. discriminate.
Defined.

(** The first rename that fails ends the pass: the directory and the log
    are those of a pass over the files listed before the failing one, and
    the files listed after it are not looked at. *)
Theorem rename_dir_stops_at_first_failure (fails : str -> bool) (d d' : gset str)
    (files : list str) (log : list (str * str)) (e : str) :
  rename_dir fails d files = Some (d', log, Raised e) ->
  exists pre f post,
    files = pre ++ f :: post /\ fails f = true /\
    allowed f = true /\ safe_audio_name f <> f /\
    rename_dir fails d pre = Some (d', log, Done tt) /\
    e = os_error.
Proof.
  revert d d' log.
  induction files as [|fname rest IH]; intros d d' log; cbn [rename_dir];
    [discriminate|].
  destruct (destination d fname) as [[dst0|]|] eqn:Ed; [| |discriminate].
  - destruct (fails fname) eqn:Hfail.
    + intros [= <- <- <-]. apply destination_policy in Ed as [Ha [Hne _]].
      exists [], fname, rest. now repeat split.
    + destruct (rename_dir fails _ rest) as [[[d1 log1] r1]|] eqn:E; [|discriminate].
      intros [= <- <- ->].
      destruct (IH _ _ _ E) as [pre [f [post [-> [Hf [Ha [Hne [Hpre ->]]]]]]]].
      exists (fname :: pre), f, post. repeat split; try assumption.
      cbn [rename_dir]. now rewrite Ed, Hfail, Hpre.
  - intros E. destruct (IH _ _ _ E) as [pre [f [post [-> [Hf [Ha [Hne [Hpre ->]]]]]]]].
    exists (fname :: pre), f, post. repeat split; try assumption.
    cbn [rename_dir]. now rewrite Ed.
Qed.

Lemma rename_dir_stops_at_first_failure_witness :
  exists pre f post,
    [py "a b.wav"; py "c d.wav"; py "e f.wav"] = pre ++ f :: post /\
    rename_dir (second_fails []) {[py "a b.wav"; py "c d.wav"; py "e f.wav"]} pre
    = Some ({[py "a-b.wav"; py "c d.wav"; py "e f.wav"]},
            [(py "a b.wav", py "a-b.wav")], Done tt).
Proof.
  destruct (rename_dir_stops_at_first_failure (second_fails [])
              {[py "a b.wav"; py "c d.wav"; py "e f.wav"]}
              {[py "a-b.wav"; py "c d.wav"; py "e f.wav"]}
              [py "a b.wav"; py "c d.wav"; py "e f.wav"]
              [(py "a b.wav", py "a-b.wav")] os_error)
    as [pre [f [post [E [_ [_ [_ [H _]]]]]]]].
  - vm_compute. reflexivity.
  - now exists pre, f, post.
Defined.

Local Open Scope N_scope.

Lemma uint_str_digits (u : Decimal.uint) :
  Forall (fun y => 48 <= y <= 57) (uint_str u).
Proof. induction u; simpl; constructor; try assumption; lia. Qed.

Lemma str_of_nat_keeps (P : N -> Prop) (i : nat) :
  (forall y, 48 <= y <= 57 -> P y) -> Forall P (str_of_nat i).
Proof.
  intros H. unfold str_of_nat. eapply Forall_impl; [apply uint_str_digits|exact H].
Qed.

Lemma lower_char_space (c : N) : isspace (lower_char c) = false -> isspace c = false.
Proof.
  unfold lower_char. destruct ((65 <=? c) && (c <=? 90)) eqn:E; [|auto].
  intros _. apply andb_true_iff in E as [E1 E2].
  apply N.leb_le in E1, E2. apply isspace_range. lia.
Qed.

Local Close Scope N_scope.

Lemma allowed_suffix_clean (fname : str) :
  allowed fname = true -> clean isspace (path_suffix fname).
Proof.
  unfold allowed, mem, ALLOW_EXTS. intros H.
  assert (Hl : clean isspace (lower (path_suffix fname))).
  { cbn [existsb] in H. unfold str_eqb in H.
    repeat (apply orb_true_iff in H as [H|H]); try discriminate;
      apply bool_decide_eq_true_1 in H; rewrite H; vm_compute;
      repeat constructor. }
  unfold clean, lower in *. rewrite Forall_map in Hl.
  eapply Forall_impl; [exact Hl|]. intros c. apply lower_char_space.
Qed.

Lemma split_on_keeps (P : N -> Prop) (sep : N) (cur s : str) :
  Forall P cur -> Forall P s -> Forall (Forall P) (split_on sep cur s).
Proof.
  revert cur. induction s as [|c r IH]; intros cur Hc Hs; simpl.
  - now repeat constructor.
  - apply Forall_cons in Hs as [Hc0 Hs]. destruct (N.eqb c sep).
    + constructor; [assumption|]. apply IH; [constructor|assumption].
    + apply IH; [|assumption]. apply Forall_app. split; [assumption|].
      now repeat constructor.
Qed.

Lemma path_name_keeps (P : N -> Prop) (s : str) :
  Forall P s -> Forall P (path_name s).
Proof.
  intros H. unfold path_name.
  match goal with |- Forall P (List.last ?l []) =>
    destruct (last_default_or_in l []) as [[_ ->]|Hin] end; [constructor|].
  apply filter_In in Hin as [Hin _].
  pose proof (split_on_keeps P slash [] s (Forall_nil_2 _) H) as Hall.
  rewrite Forall_forall in Hall. apply Hall. now apply list_elem_of_In.
Qed.

Lemma path_parts_keep (P : N -> Prop) (s : str) :
  Forall P s -> Forall P (path_stem s) /\ Forall P (path_suffix s).
Proof.
  intros H. apply path_name_keeps in H.
  rewrite (name_stem_suffix (path_name s)) in H. now apply Forall_app in H.
Qed.

Lemma safe_audio_name_keeps (P : N -> Prop) (fname : str) :
  P dash -> Forall P fname -> Forall P (safe_audio_name fname).
Proof.
  intros Hd H. destruct (path_parts_keep P fname H) as [H1 H2].
  unfold safe_audio_name. apply Forall_app. split; [|assumption].
  now apply sanitize_stem_keeps.
Qed.

Lemma safe_audio_name_clean (fname : str) :
  allowed fname = true -> clean isspace (safe_audio_name fname).
Proof.
  intros H. unfold safe_audio_name. apply Forall_app. split.
  - apply sanitize_stem_clean.
  - now apply allowed_suffix_clean.
Qed.

Lemma candidate_keeps (P : N -> Prop) (target : str) (i : nat) :
  P dash -> (forall y, (48 <= y <= 57)%N -> P y) -> Forall P target ->
  Forall P (candidate (path_stem target) (path_suffix target) i).
Proof.
  intros Hd Hdig H. destruct (path_parts_keep P target H) as [H1 H2].
  unfold candidate. apply Forall_app. split; [assumption|].
  apply Forall_app. split; [now repeat constructor|].
  apply Forall_app. split; [now apply str_of_nat_keeps|assumption].
Qed.

Lemma destination_clean (d : gset str) (fname dst : str) :
  destination d fname = Some (Some dst) -> clean isspace dst.
Proof.
  intros H. apply destination_policy in H as [Ha [_ [_ H]]].
  pose proof (safe_audio_name_clean fname Ha) as Hc.
  destruct H as [[_ ->]|[_ [i [_ [-> _]]]]]; [exact Hc|].
  apply candidate_keeps; [reflexivity| |exact Hc].
  intros y Hy. apply isspace_range. lia.
Qed.

Lemma rename_dir_log_clean (fails : str -> bool) (d d' : gset str)
    (files : list str) (log : list (str * str)) (r : outcome unit) :
  rename_dir fails d files = Some (d', log, r) ->
  forall src dst, (src, dst) ∈ log -> clean isspace dst.
Proof.
  revert d d' log r.
  induction files as [|fname rest IH]; intros d d' log r; cbn [rename_dir].
  - intros [= _ <- _] src dst H. now apply elem_of_nil in H.
  - destruct (destination d fname) as [[dst0|]|] eqn:Ed; [|apply IH|discriminate].
    destruct (fails fname).
    + intros [= _ <- _] src dst H. now apply elem_of_nil in H.
    + destruct (rename_dir fails _ rest) as [[[d1 log1] r1]|] eqn:E; [|discriminate].
      intros [= _ <- _] src dst H. apply elem_of_cons in H as [[= -> ->]|H].
      * now apply destination_clean in Ed.
      * now apply (IH _ _ _ _ E src dst).
Qed.

Lemma rename_dir_skipped (d d' : gset str) (files : list str)
    (log : list (str * str)) :
  rename_dir no_fail d files = Some (d', log, Done tt) ->
  forall f, f ∈ files -> f ∉ map fst log ->
    allowed f = false \/ safe_audio_name f = f.
Proof.
  revert d d' log.
  induction files as [|fname rest IH]; intros d d' log; cbn [rename_dir].
  - intros _ f H. now apply elem_of_nil in H.
  - destruct (destination d fname) as [[dst0|]|] eqn:Ed; [| |discriminate].
    + destruct (rename_dir no_fail _ rest) as [[[d1 log1] r1]|] eqn:E; [|discriminate].
      cbn [no_fail]. intros [= <- <- ->] f Hf Hn. simpl in Hn.
      apply not_elem_of_cons in Hn as [Hne Hn].
      apply elem_of_cons in Hf as [->|Hf]; [contradiction|].
      now apply (IH _ _ _ E).
    + intros E f Hf Hn. apply elem_of_cons in Hf as [->|Hf].
      * now apply (destination_skip d).
      * now apply (IH _ _ _ E).
Qed.

Lemma final_name_in_log (log : list (str * str)) (f : str) :
  f ∈ map fst log -> (f, final_name log f) ∈ log.
Proof.
  induction log as [|[s t] log IH]; simpl; [intros H; now apply elem_of_nil in H|].
  unfold str_eqb. intros H. destruct (decide (s = f)) as [->|Hne].
  - rewrite (bool_decide_eq_true_2 _ eq_refl). left.
  - rewrite (bool_decide_eq_false_2 _ Hne). right. apply IH.
    apply elem_of_cons in H as [H|H]; [congruence|assumption].
Qed.

(** After a pass that no error ended, every file of the listing that
    qualifies under its final name has a name without any whitespace. *)
Theorem rename_dir_leaves_no_whitespace (d d' : gset str) (files : list str)
    (log : list (str * str)) :
  rename_dir no_fail d files = Some (d', log, Done tt) ->
  forall f, f ∈ files -> allowed (final_name log f) = true ->
    clean isspace (final_name log f).
Proof.
  intros E f Hf Ha. destruct (decide (f ∈ map fst log)) as [Hin|Hnin].
  - apply final_name_in_log in Hin. now apply (rename_dir_log_clean _ _ _ _ _ _ E f).
  - rewrite final_name_other in * by assumption.
    destruct (rename_dir_skipped _ _ _ _ E f Hf Hnin) as [H|H]; [congruence|].
    rewrite <- H. now apply safe_audio_name_clean.
Qed.

Lemma rename_dir_leaves_no_whitespace_witness :
  clean isspace (final_name [(py "snare A.wav", py "snare-A-1.wav")] (py "snare A.wav")).
Proof.
  apply (rename_dir_leaves_no_whitespace
           {[py "snare A.wav"; py "snare-A.wav"]}
           {[py "snare-A-1.wav"; py "snare-A.wav"]}
           [py "snare A.wav"; py "snare-A.wav"]).
  - vm_compute. reflexivity.
  - left.
  - vm_compute. reflexivity.
Defined.

Lemma path_split (a b : str) :
  a <> [] -> b <> [] -> dot ∉ b -> slash ∉ a -> slash ∉ b ->
  path_stem (a ++ dot :: b) = a /\ path_suffix (a ++ dot :: b) = dot :: b.
Proof.
  intros Ha Hb Hd Hsa Hsb. unfold path_stem, path_suffix.
  rewrite path_name_id.
  - now apply name_split.
  - intros H. apply elem_of_app in H as [H|H]; [contradiction|].
    apply elem_of_cons in H as [H|H]; [discriminate|contradiction].
  - destruct a as [|x [|y a]]; [contradiction| |discriminate].
    destruct b; [contradiction|discriminate].
Qed.

Lemma allowed_split (fname : str) :
  allowed fname = true ->
  exists a b, path_name fname = a ++ dot :: b /\ path_stem fname = a /\
    path_suffix fname = dot :: b /\ a <> [] /\ b <> [] /\ dot ∉ b.
Proof.
  intros H. unfold path_stem, path_suffix, name_stem, name_suffix.
  unfold allowed, path_suffix, name_suffix in H.
  destruct (ext_index (path_name fname)) as [i|] eqn:E; [|discriminate].
  apply ext_index_Some_inv in E as [a [b [E [-> [Ha [Hb Hd]]]]]].
  exists a, b. rewrite E. rewrite take_app_length, drop_app_length.
  now repeat split.
Qed.

(** A renamed file keeps its extension exactly, and so stays a qualifying
    file, when its stem is not made of whitespace alone. *)
Theorem destination_keeps_extension (d : gset str) (fname dst : str) :
  destination d fname = Some (Some dst) ->
  ~ blank (path_stem fname) ->
  path_suffix dst = path_suffix fname /\ allowed dst = true.
Proof.
  intros H Hnb. apply destination_policy in H as [Ha [_ [_ H]]].
  destruct (allowed_split fname Ha) as [a [b [En [Ea [Eb [Hna [Hnb' Hd]]]]]]].
  rewrite Ea in Hnb.
  assert (Ht : safe_audio_name fname = sanitize_stem a ++ dot :: b)
    by (unfold safe_audio_name; now rewrite Ea, Eb).
  assert (Hsl : slash ∉ safe_audio_name fname).
  { rewrite safe_audio_name_name. apply sanitize_name_no_slash.
    apply path_name_facts. }
  rewrite Ht in Hsl. apply not_elem_of_app in Hsl as [Hs1 Hs2].
  apply not_elem_of_cons in Hs2 as [_ Hs2].
  pose proof (sanitize_stem_nonempty a Hnb) as Hne.
  destruct (path_split (sanitize_stem a) b Hne Hnb' Hd Hs1 Hs2) as [Est Esf].
  assert (Hsuf : path_suffix dst = dot :: b).
  { destruct H as [[_ ->]|[_ [i [_ [-> _]]]]]; rewrite Ht; [exact Esf|].
    rewrite Est, Esf. unfold candidate.
    replace (sanitize_stem a ++ [dash] ++ str_of_nat i ++ dot :: b)
      with ((sanitize_stem a ++ dash :: str_of_nat i) ++ dot :: b)
      by (rewrite <- app_assoc; reflexivity).
    apply path_split; try assumption.
    - now destruct (sanitize_stem a).
    - apply not_elem_of_app. split; [assumption|].
      apply not_elem_of_cons. split; [discriminate|].
      intros Hin. pose proof (str_of_nat_keeps (fun y => y <> slash) i) as Hk.
      rewrite Forall_forall in Hk. apply (Hk ltac:(intros y Hy ->; unfold slash in Hy; lia) _ Hin).
      reflexivity. }
  split; [now rewrite Hsuf, Eb|].
  unfold allowed in *. now rewrite Hsuf, <- Eb.
Qed.

Lemma destination_keeps_extension_witness :
  path_suffix (py "snare-A-1.WAV") = path_suffix (py "snare A.WAV") /\
  allowed (py "snare-A-1.WAV") = true.
Proof.
  apply (destination_keeps_extension {[py "snare A.WAV"; py "snare-A.WAV"]}).
  - vm_compute. reflexivity.
  - intros H. vm_compute in H. apply Forall_cons in H as [H _]. discriminate.
Defined.

(** ** The renamer, whole tree *)

Lemma skeleton_folder (IGNORE_DIRS : list str) (es : list (str * node)) :
  skeleton IGNORE_DIRS (Folder es) = Folder (map (skeleton_entry IGNORE_DIRS) es).
Proof. reflexivity. Qed.

Lemma skeleton_relabel (IGNORE_DIRS : list str) (log : list (str * str))
    (es : list (str * node)) :
  map (skeleton_entry IGNORE_DIRS) (relabel log es)
  = map (skeleton_entry IGNORE_DIRS) es.
Proof.
  unfold relabel. rewrite map_map. apply map_ext. intros [n x].
  unfold skeleton_entry. simpl. destruct (is_folder x) eqn:E; simpl; now rewrite E.
Qed.

Lemma rename_files_skeleton (IGNORE_DIRS : list str)
    (fails : list str -> str -> bool) (t : node) :
  forall path t' r,
    rename_files IGNORE_DIRS fails path t = Some (t', r) ->
    skeleton IGNORE_DIRS t' = skeleton IGNORE_DIRS t.
Proof.
  induction t as [c|es H] using node_induction; intros path t' r.
  - now intros [= <- _].
  - cbn [rename_files].
    destruct (rename_dir (fails path) (entry_names es) (file_names es))
      as [[[d' log] [[]|e]]|]; [| |discriminate].
    2:{ intros [= <- _]. now rewrite !skeleton_folder, skeleton_relabel. }
    match goal with
    | |- match ?g es with _ => _ end = _ -> _ =>
        assert (Hgo : forall l' r', g es = Some (l', r') ->
                  map (skeleton_entry IGNORE_DIRS) l'
                  = map (skeleton_entry IGNORE_DIRS) es);
          [|destruct (g es) as [[es' r0]|]; [|discriminate];
            intros [= <- _]; rewrite !skeleton_folder; f_equal; now apply (Hgo es' r0)]
    end.
    induction H as [|[n sub] rest Hsub _ IH]; intros l' r'.
    + now intros [= <- _].
    + simpl in Hsub. cbn [map].
      destruct (is_folder sub && negb (pruned IGNORE_DIRS n)) eqn:Eb.
      * apply andb_true_iff in Eb as [Ef Ep]. apply negb_true_iff in Ep.
        destruct (rename_files IGNORE_DIRS fails (path ++ [n]) sub)
          as [[sub' [[]|e]]|] eqn:Es; [| |discriminate].
        -- match goal with
           | |- match ?x with _ => _ end = _ -> _ =>
               destruct x as [[rest' r1]|] eqn:Er; [|discriminate]
           end.
           intros [= <- _]. cbn [map]. f_equal; [|now apply (IH rest' r1)].
           unfold skeleton_entry. simpl.
           assert (Ef' : is_folder sub' = true).
           { apply Hsub in Es. destruct sub; [discriminate|].
             destruct sub'; [discriminate|reflexivity]. }
           rewrite Ef, Ef', Ep. f_equal. now apply (Hsub _ _ _ Es).
        -- intros [= <- _]. cbn [map]. rewrite skeleton_relabel. f_equal.
           unfold skeleton_entry. simpl.
           assert (Ef' : is_folder sub' = true).
           { apply Hsub in Es. destruct sub; [discriminate|].
             destruct sub'; [discriminate|reflexivity]. }
           rewrite Ef, Ef', Ep. f_equal. now apply (Hsub _ _ _ Es).
      * match goal with
        | |- match ?x with _ => _ end = _ -> _ =>
            destruct x as [[rest' r1]|] eqn:Er; [|discriminate]
        end.
        intros [= <- _]. cbn [map]. f_equal; [|now apply (IH rest' r1)].
        unfold skeleton_entry. simpl. destruct (is_folder sub) eqn:Ef; [|reflexivity].
        simpl in Eb. apply negb_false_iff in Eb. now rewrite Eb.
Qed.

(** Every walk of the renamer ends, for every tree and whatever renames
    fail, and it changes nothing but names of files in walked folders:
    folders, file contents and everything below a pruned folder are as
    before, also when an error ended the walk. *)
Theorem rename_files_ends_and_keeps_tree (IGNORE_DIRS : list str)
    (fails : list str -> str -> bool) (path : list str) (t : node) :
  exists t' r,
    rename_files IGNORE_DIRS fails path t = Some (t', r) /\
    skeleton IGNORE_DIRS t' = skeleton IGNORE_DIRS t.
Proof.
  destruct (rename_files_total IGNORE_DIRS fails t path) as [[t' r] E].
  exists t', r. split; [exact E|]. now apply (rename_files_skeleton _ _ _ _ _ _ E).
Qed.

(** ** The catalog builder: errors and shape *)

Lemma forallb_false_Exists {A : Type} (f : A -> bool) (l : list A) :
  forallb f l = false <-> Exists (fun x => f x = false) l.
Proof.
  induction l as [|x l IH]; simpl.
  - split; [discriminate|intros H; inversion H].
  - rewrite andb_false_iff, IH. split.
    + intros [H|H]; [now left|now right].
    + intros H. apply Exists_cons in H as [H|H]; [now left|now right].
Qed.

Lemma visit_raises (IGNORE_DIRS : list str) (b : str) (data : list (str * json))
    (path files : list str) :
  groups_ok b data -> part IGNORE_DIRS base_key (path, files) <> [] ->
  visit IGNORE_DIRS data path files = Raised (py "AttributeError").
Proof.
  intros [Hb _] Hp. unfold part in Hp. simpl in Hp.
  destruct (decide (last path = Some base_key)) as [El|El].
  2:{ rewrite (bool_decide_eq_false_2 _ El) in Hp. contradiction. }
  rewrite (bool_decide_eq_true_2 _ El) in Hp.
  destruct (pruned IGNORE_DIRS base_key) eqn:Ep; [contradiction|]. simpl in Hp.
  unfold visit. rewrite El, Ep. unfold contribution in Hp.
  destruct (map (file_entry path) (List.filter allowed files)) as [|i items];
    [contradiction|].
  unfold setdefault_extend. now rewrite Hb.
Qed.

Lemma visit_all_raises (IGNORE_DIRS : list str) (b : str)
    (dirs : list (list str * list str)) :
  Exists (fun dir => part IGNORE_DIRS base_key dir <> []) dirs ->
  forall data, groups_ok b data ->
    visit_all IGNORE_DIRS data dirs = Raised (py "AttributeError").
Proof.
  induction dirs as [|[path files] rest IH]; intros Hex data Hok;
    [inversion Hex|].
  cbn [visit_all].
  destruct (decide (part IGNORE_DIRS base_key (path, files) = [])) as [E|E].
  - destruct (visit_done IGNORE_DIRS b data path files Hok E) as [data1 [-> [Hok1 _]]].
    apply IH; [|assumption]. apply Exists_cons in Hex as [H|H]; [contradiction|assumption].
  - now rewrite (visit_raises IGNORE_DIRS b).
Qed.

Lemma no_base_groupb_false (IGNORE_DIRS : list str) (root : node) :
  no_base_groupb IGNORE_DIRS root = false <->
  Exists (fun dir => part IGNORE_DIRS base_key dir <> []) (walk IGNORE_DIRS [] root).
Proof.
  unfold no_base_groupb. rewrite forallb_false_Exists.
  split; intros H; eapply Exists_impl; try exact H; intros dir Hd; simpl in *.
  - now destruct (part IGNORE_DIRS base_key dir).
  - now destruct (part IGNORE_DIRS base_key dir).
Qed.

Lemma catalog_raises (IGNORE_DIRS : list str) (base_url : str) (root : node) :
  no_base_groupb IGNORE_DIRS root = false ->
  catalog IGNORE_DIRS base_url root = Raised (py "AttributeError").
Proof.
  intros H. apply no_base_groupb_false in H. unfold catalog.
  apply (visit_all_raises IGNORE_DIRS base_url); [assumption|].
  split; [reflexivity|]. intros key Hk. left. simpl. unfold str_eqb.
  rewrite bool_decide_eq_false_2; [reflexivity|congruence].
Qed.

Lemma catalog_done_no_base (IGNORE_DIRS : list str) (base_url : str) (root : node)
    (data : list (str * json)) :
  catalog IGNORE_DIRS base_url root = Done data ->
  no_base_groupb IGNORE_DIRS root = true.
Proof.
  intros E. destruct (no_base_groupb IGNORE_DIRS root) eqn:Hb; [reflexivity|].
  rewrite (catalog_raises _ base_url _ Hb) in E. discriminate.
Qed.

(** The catalog cannot be built exactly when some walked folder named
    [_base] holds a qualifying file: [setdefault] then returns the string
    under [_base] and [extend] raises [AttributeError]; the error comes
    before the file is opened, so the tree stays as it is. *)
Theorem catalog_raises_on_base_folder (IGNORE_DIRS : list str) (base_url : str)
    (root : node) :
  (catalog IGNORE_DIRS base_url root = Raised (py "AttributeError") <->
   exists path es f,
     reach root path (Folder es) /\ last path = Some base_key /\
     walked IGNORE_DIRS path /\ f ∈ file_names es /\ allowed f = true) /\
  (forall e, catalog IGNORE_DIRS base_url root = Raised e ->
     e = py "AttributeError" /\
     forall write_fails left_behind,
       generate_json IGNORE_DIRS write_fails left_behind base_url root
       = (root, Raised e)).
Proof.
  assert (Hsem : no_base_groupb IGNORE_DIRS root = false <->
    exists path es f,
      reach root path (Folder es) /\ last path = Some base_key /\
      walked IGNORE_DIRS path /\ f ∈ file_names es /\ allowed f = true).
  { split.
    - intros H. apply no_base_groupb_false, Exists_exists in H as [dir [Hd Hp]].
      destruct (part IGNORE_DIRS base_key dir) as [|s l] eqn:Ep; [contradiction|].
      assert (Hs : s ∈ concat (map (part IGNORE_DIRS base_key)
                                 (walk IGNORE_DIRS [] root))).
      { apply in_parts. exists dir. split; [assumption|].
        rewrite Ep. left. }
      apply in_group in Hs as [path [es [f [_ Hrest]]]]. now exists path, es, f.
    - intros [path [es [f Hrest]]].
      destruct (no_base_groupb IGNORE_DIRS root) eqn:Hb; [|reflexivity].
      apply no_base_groupb_parts in Hb.
      assert (Hs : file_entry path f
                   ∈ concat (map (part IGNORE_DIRS base_key)
                               (walk IGNORE_DIRS [] root))).
      { apply in_group. now exists path, es, f. }
      apply in_parts in Hs as [dir [Hd Hs]]. rewrite Forall_forall in Hb.
      rewrite (Hb dir Hd) in Hs. now apply elem_of_nil in Hs. }
  split.
  - rewrite <- Hsem. split; [|apply catalog_raises].
    intros E. destruct (no_base_groupb IGNORE_DIRS root) eqn:Hb; [|reflexivity].
    apply no_base_groupb_parts in Hb.
    destruct (catalog_groups IGNORE_DIRS base_url root Hb) as [data [Ed _]].
    congruence.
  - intros e E.
    assert (He : e = py "AttributeError").
    { destruct (no_base_groupb IGNORE_DIRS root) eqn:Hb.
      - apply no_base_groupb_parts in Hb.
        destruct (catalog_groups IGNORE_DIRS base_url root Hb) as [data [Ed _]].
        congruence.
      - rewrite (catalog_raises _ base_url _ Hb) in E. now injection E. }
    split; [exact He|]. intros wf lb. unfold generate_json. now rewrite E.
Qed.

Lemma catalog_raises_on_base_folder_witness :
  generate_json IGNORE_DIRS_server false (fun _ => []) localhost_url
    (Folder [(base_key, Folder [(py "a.wav", File [])])])
  = (Folder [(base_key, Folder [(py "a.wav", File [])])],
     Raised (py "AttributeError")).
Proof.
  destruct (catalog_raises_on_base_folder IGNORE_DIRS_server localhost_url
              (Folder [(base_key, Folder [(py "a.wav", File [])])])) as [_ H].
  destruct (H (py "AttributeError")) as [_ Hg]; [vm_compute; reflexivity|].
  apply Hg.
Defined.

Lemma dict_set_keys (k : str) (v : json) (d : list (str * json)) :
  keys (dict_set k v d) = if bool_decide (k ∈ keys d) then keys d else keys d ++ [k].
Proof.
  induction d as [|[k' v'] d IH]; simpl; [reflexivity|]. unfold str_eqb.
  destruct (decide (k' = k)) as [->|Hne].
  - rewrite (bool_decide_eq_true_2 (k = k) eq_refl). simpl.
    rewrite bool_decide_eq_true_2; [reflexivity|left].
  - rewrite (bool_decide_eq_false_2 _ Hne). simpl. rewrite IH. fold (keys d).
    destruct (decide (k ∈ keys d)) as [Hin|Hnin].
    + rewrite (bool_decide_eq_true_2 _ Hin).
      rewrite bool_decide_eq_true_2; [reflexivity|now right].
    + rewrite (bool_decide_eq_false_2 _ Hnin).
      rewrite bool_decide_eq_false_2; [reflexivity|].
      intros H. apply elem_of_cons in H as [H|H]; [congruence|contradiction].
Qed.

Lemma dict_set_nodup (k : str) (v : json) (d : list (str * json)) :
  NoDup (keys d) -> NoDup (keys (dict_set k v d)).
Proof.
  intros H. rewrite dict_set_keys. destruct (decide (k ∈ keys d)) as [Hin|Hnin].
  - now rewrite (bool_decide_eq_true_2 _ Hin).
  - rewrite (bool_decide_eq_false_2 _ Hnin). apply NoDup_app. repeat split.
    + assumption.
    + intros x Hx Hk. apply list_elem_of_singleton in Hk. now subst.
    + apply NoDup_singleton.
Qed.

Lemma visit_keeps_head (IGNORE_DIRS : list str) (b : str)
    (data data' rest : list (str * json)) (path files : list str) :
  visit IGNORE_DIRS data path files = Done data' ->
  data = (base_key, JString b) :: rest -> NoDup (keys data) ->
  exists rest', data' = (base_key, JString b) :: rest' /\ NoDup (keys data').
Proof.
  intros E -> Hnd. unfold visit in E.
  destruct (last path) as [name|]; [|injection E as <-; eauto].
  destruct (pruned IGNORE_DIRS name); [injection E as <-; eauto|].
  destruct (map (file_entry path) (List.filter allowed files)) as [|i items];
    [injection E as <-; eauto|].
  unfold setdefault_extend in E.
  destruct (decide (name = base_key)) as [->|Hne].
  { assert (Hg : dict_get base_key ((base_key, JString b) :: rest)
                 = Some (JString b)) by reflexivity.
    rewrite Hg in E. discriminate. }
  assert (Hset : forall v,
    exists rest', dict_set name v ((base_key, JString b) :: rest)
                  = (base_key, JString b) :: rest'
                  /\ NoDup (keys (dict_set name v ((base_key, JString b) :: rest)))).
  { intros v. eexists. split; [|now apply dict_set_nodup].
    simpl. unfold str_eqb. rewrite bool_decide_eq_false_2 by congruence.
    reflexivity. }
  destruct (dict_get name ((base_key, JString b) :: rest)) as [[| | | | |l|]|];
    try discriminate; injection E as <-; apply Hset.
Qed.

Lemma visit_all_keeps_head (IGNORE_DIRS : list str) (b : str)
    (dirs : list (list str * list str)) :
  forall data data' rest,
    visit_all IGNORE_DIRS data dirs = Done data' ->
    data = (base_key, JString b) :: rest -> NoDup (keys data) ->
    exists rest', data' = (base_key, JString b) :: rest' /\ NoDup (keys data').
Proof.
  induction dirs as [|[path files] dirs IH]; intros data data' rest; cbn [visit_all].
  - intros [= <-] -> Hnd. eauto.
  - destruct (visit IGNORE_DIRS data path files) as [data1|e] eqn:Ev; [|discriminate].
    intros E Ed Hnd.
    destruct (visit_keeps_head _ _ _ _ _ _ _ Ev Ed Hnd) as [rest1 [E1 Hnd1]].
    now apply (IH data1 data' rest1).
Qed.

(** A catalog that is built begins with [_base], holding the URL given;
    no key occurs twice; every other key holds a list of strings that is
    not empty; and every qualifying file of every walked folder other than
    the root is listed under the base name of its folder. *)
Theorem catalog_shape (IGNORE_DIRS : list str) (base_url : str) (root : node)
    (data : list (str * json)) :
  catalog IGNORE_DIRS base_url root = Done data ->
  (exists rest, data = (base_key, JString base_url) :: rest) /\
  NoDup (keys data) /\
  (forall key v, dict_get key data = Some v -> key <> base_key ->
     exists s l, v = JArray (map JString (s :: l))) /\
  (forall path es f key,
     reach root path (Folder es) -> walked IGNORE_DIRS path ->
     last path = Some key -> f ∈ file_names es -> allowed f = true ->
     exists items, dict_get key data = Some (JArray items) /\
       JString (file_entry path f) ∈ items).
Proof.
  intros E.
  pose proof (catalog_done_no_base _ _ _ _ E) as Hb.
  pose proof (no_base_groupb_parts _ _ Hb) as Hparts.
  destruct (catalog_groups IGNORE_DIRS base_url root Hparts) as [data0 [E0 [_ Hget]]].
  assert (data0 = data) by congruence. subst data0.
  assert (Hhead : exists rest, data = (base_key, JString base_url) :: rest
                               /\ NoDup (keys data)).
  { unfold catalog in E. apply (visit_all_keeps_head _ _ _ _ _ [] E); [reflexivity|].
    apply NoDup_singleton. }
  destruct Hhead as [rest [Ed Hnd]].
  split; [now exists rest|]. split; [exact Hnd|]. split.
  - intros key v Hv Hk. rewrite (Hget key Hk) in Hv. unfold extended in Hv.
    destruct (concat _) as [|s l]; [discriminate|]. injection Hv as <-.
    now exists s, l.
  - intros path es f key Hr Hw El Hf Ha.
    assert (Hs : file_entry path f
                 ∈ concat (map (part IGNORE_DIRS key) (walk IGNORE_DIRS [] root))).
    { apply in_group. now exists path, es, f. }
    assert (Hk : key <> base_key).
    { intros ->. apply in_parts in Hs as [dir [Hd Hs]].
      rewrite Forall_forall in Hparts. rewrite (Hparts dir Hd) in Hs.
      now apply elem_of_nil in Hs. }
    rewrite (Hget key Hk). unfold extended.
    destruct (concat _) as [|s l] eqn:Ec; [now apply elem_of_nil in Hs|].
    eexists. split; [reflexivity|]. now apply list_elem_of_fmap_2.
Qed.

Lemma catalog_shape_witness :
  exists items,
    dict_get (py "kicks")
      [(base_key, JString localhost_url);
       (py "kicks", JArray (map JString [py "/kicks/z.wav"; py "/kicks/kicks/a.wav"]))]
    = Some (JArray items) /\
    JString (file_entry [py "kicks"; py "kicks"] (py "a.wav")) ∈ items.
Proof.
  destruct (catalog_shape IGNORE_DIRS_server localhost_url nested_kicks
              [(base_key, JString localhost_url);
               (py "kicks",
                JArray (map JString [py "/kicks/z.wav"; py "/kicks/kicks/a.wav"]))])
    as [_ [_ [_ H]]].
  - vm_compute. reflexivity.
  - apply (H [py "kicks"; py "kicks"] [(py "a.wav", File [])] (py "a.wav")).
    + eapply reach_down; [left|]. eapply reach_down; [right; left|]. constructor.
    + repeat constructor.
    + reflexivity.
    + left.
    + reflexivity.
Defined.

(** ** Static files *)

Local Open Scope N_scope.

Lemma before_app (c : N) (x t : str) :
  c ∉ x -> before c (x ++ t) = x ++ before c t.
Proof.
  induction x as [|y x IH]; intros H; simpl; [reflexivity|].
  apply not_elem_of_cons in H as [H1 H2].
  destruct (y =? c) eqn:E; [apply N.eqb_eq in E; congruence|].
  now rewrite IH.
Qed.

Lemma before_cut (x tail : str) :
  (63 : N) ∉ x -> (35 : N) ∉ x ->
  tail = [] \/ (exists t, tail = 63 :: t) \/ (exists t, tail = 35 :: t) ->
  before 35 (before 63 (x ++ tail)) = x.
Proof.
  intros Hq Hh [->|[[t ->]|[t ->]]].
  - rewrite app_nil_r, <- (app_nil_r x), !before_app by assumption. reflexivity.
  - rewrite before_app by assumption. simpl. rewrite before_app by assumption.
    simpl. now rewrite app_nil_r.
  - rewrite before_app by assumption. simpl. rewrite before_app by assumption.
    simpl. now rewrite app_nil_r.
Qed.

Lemma split_on_app (cur p s : str) :
  slash ∉ p -> split_on slash cur (p ++ s) = split_on slash (cur ++ p) s.
Proof.
  revert cur. induction p as [|y p IH]; intros cur H; simpl.
  - now rewrite app_nil_r.
  - apply not_elem_of_cons in H as [H1 H2].
    destruct (y =? slash) eqn:E; [apply N.eqb_eq in E; congruence|].
    rewrite IH by assumption. now rewrite <- app_assoc.
Qed.

Lemma split_on_join (comps : list str) (cur : str) :
  Forall (fun c => slash ∉ c) comps -> comps <> [] ->
  split_on slash cur (join slash comps)
  = match comps with c :: rest => (cur ++ c) :: rest | [] => [] end.
Proof.
  intros Hall. revert cur. induction Hall as [|c rest Hc Hrest IH]; intros cur Hne;
    [contradiction|].
  destruct rest as [|c' rest].
  - simpl. now apply split_on_no_sep.
  - change (join slash (c :: c' :: rest)) with (c ++ slash :: join slash (c' :: rest)).
    rewrite split_on_app by assumption. cbn [split_on].
    change (slash =? slash)%N with true. cbv iota.
    f_equal. rewrite IH by discriminate. reflexivity.
Qed.

Lemma plain_component_facts (c : str) :
  plain_component c = true ->
  c <> [] /\ c <> [dot] /\ c <> [dot; dot] /\
  (slash ∉ c) /\ ((63 : N) ∉ c) /\ ((35 : N) ∉ c).
Proof.
  unfold plain_component, str_eqb. intros H.
  repeat (apply andb_true_iff in H as [H ?]).
  repeat match goal with
         | H : negb (bool_decide _) = true |- _ =>
             apply negb_true_iff, bool_decide_eq_false_1 in H
         end.
  rewrite forallb_forall in H0.
  assert (Hx : forall x, x ∈ c -> x <> slash /\ x <> 63 /\ x <> 35).
  { intros x Hx. apply list_elem_of_In in Hx. specialize (H0 x Hx).
    apply negb_true_iff in H0. repeat (apply orb_false_iff in H0 as [H0 ?]).
    repeat match goal with H : (_ =? _) = false |- _ => apply N.eqb_neq in H end.
    now repeat split. }
  repeat split; try assumption; intros Hin; destruct (Hx _ Hin) as [? [? ?]];
    congruence.
Qed.

Lemma join_keeps (P : N -> Prop) (comps : list str) :
  P slash -> Forall (Forall P) comps -> Forall P (join slash comps).
Proof.
  intros Hs. induction 1 as [|c rest Hc _ IH]; [constructor|].
  destruct rest as [|c' rest]; [exact Hc|].
  change (join slash (c :: c' :: rest)) with (c ++ slash :: join slash (c' :: rest)).
  apply Forall_app. split; [assumption|]. now constructor.
Qed.

Lemma join_avoids (x : N) (comps : list str) :
  x <> slash -> Forall (fun c => x ∉ c) comps -> x ∉ join slash comps.
Proof.
  intros Hx Hall Hin.
  assert (H : Forall (fun y => y <> x) (join slash comps)).
  { apply join_keeps; [congruence|]. eapply Forall_impl; [exact Hall|].
    intros c Hc. apply Forall_forall. intros y Hy ->. contradiction. }
  rewrite Forall_forall in H. now apply (H x Hin).
Qed.

Lemma resolve_plain (comps st : list str) :
  Forall (fun c => plain_component c = true) comps ->
  fold_left resolve_step comps st = st ++ comps.
Proof.
  intros Hall. revert st. induction Hall as [|c rest Hc _ IH]; intros st; simpl.
  - now rewrite app_nil_r.
  - apply plain_component_facts in Hc as [H1 [H2 [H3 _]]].
    unfold resolve_step at 2. unfold str_eqb.
    rewrite !bool_decide_eq_false_2 by assumption. simpl.
    rewrite IH. now rewrite <- app_assoc.
Qed.

Lemma startswith_app (p q : str) : startswith p (p ++ q) = true.
Proof. induction p as [|x p IH]; simpl; [reflexivity|]. now rewrite N.eqb_refl. Qed.

Lemma path_str_prefix (root x : list str) :
  startswith (path_str root) (path_str (root ++ x)) = true.
Proof.
  destruct root as [|r root].
  - destruct x as [|c x]; [reflexivity|]. simpl. reflexivity.
  - change (path_str ((r :: root) ++ x))
      with (flat_map (fun c => slash :: c) ((r :: root) ++ x)).
    rewrite flat_map_app. apply startswith_app.
Qed.

Lemma below_path_app (root x : list str) : below_path root (root ++ x) = Some x.
Proof.
  induction root as [|r root IH]; simpl; [reflexivity|]. unfold str_eqb.
  now rewrite (bool_decide_eq_true_2 (r = r) eq_refl).
Qed.

Local Close Scope N_scope.

Lemma lstrip_slash_plain (c : str) (s : str) :
  plain_component c = true -> lstrip_slash (c ++ s) = c ++ s.
Proof.
  intros H. apply plain_component_facts in H as [Hne [_ [_ [Hs _]]]].
  destruct c as [|x c]; [contradiction|]. simpl.
  apply not_elem_of_cons in Hs as [Hx _].
  destruct (N.eqb x slash) eqn:E; [apply N.eqb_eq in E; congruence|reflexivity].
Qed.

Section StaticClaims.
Variable IGNORE_DIRS : list str.
Variable ROOT : list str.
Variable fails : list str -> str -> bool.
Variable write_fails : bool.
Variable left_behind : str -> list N.
Variable json_load : list N -> outcome json.
Variable guess_type : str -> option str.

Lemma static_rel (comps : list str) (tail : str) :
  comps <> [] -> Forall (fun c => plain_component c = true) comps ->
  tail = [] \/ (exists t, tail = 63%N :: t) \/ (exists t, tail = 35%N :: t) ->
  before 35 (before 63 (lstrip_slash (slash :: join slash comps ++ tail)))
  = join slash comps.
Proof.
  intros Hne Hall Ht.
  assert (Hf : forall x : N, x <> slash ->
            Forall (fun c : list N => plain_component c = true -> x ∉ c) comps ->
            x ∉ join slash comps).
  { intros x Hx H. apply join_avoids; [assumption|].
    rewrite Forall_forall in *. intros c Hc. apply H; [assumption|]. now apply Hall. }
  assert (E : lstrip_slash (slash :: join slash comps ++ tail)
              = join slash comps ++ tail).
  { cbn [lstrip_slash]. change (slash =? slash)%N with true. cbv iota.
    destruct comps as [|c [|c' rest]]; [contradiction| |].
    - apply Forall_cons in Hall as [Hc _]. simpl. now apply lstrip_slash_plain.
    - apply Forall_cons in Hall as [Hc _].
      change (join slash (c :: c' :: rest)) with (c ++ slash :: join slash (c' :: rest)).
      rewrite <- app_assoc. now apply lstrip_slash_plain. }
  rewrite E. apply before_cut; [| |assumption].
  - apply Hf; [discriminate|]. apply Forall_forall. intros c _ Hc.
    now apply plain_component_facts in Hc.
  - apply Hf; [discriminate|]. apply Forall_forall. intros c _ Hc.
    now apply plain_component_facts in Hc.
Qed.

(** A regular file of the tree is served as it is: for a path of plain
    components that leads to a file, the request for that path, with or
    without a query or a fragment after it, is answered 200 with the type
    guessed from the resolved path and the content of the file, and the
    world is left as it is.  The path must not begin with [/rebuild] and
    must not be [/strudel.json], which the handler takes first. *)
Theorem existing_file_is_served (w : world) (req : request)
    (comps : list str) (tail : str) (content : list N) :
  comps <> [] -> Forall (fun c => plain_component c = true) comps ->
  tail = [] \/ (exists t, tail = 63%N :: t) \/ (exists t, tail = 35%N :: t) ->
  req_path req = slash :: join slash comps ++ tail ->
  startswith (py "/rebuild") (req_path req) = false ->
  is_catalog_path (req_path req) = false ->
  find_node (w_root w) comps = Some (File content) ->
  do_GET IGNORE_DIRS ROOT fails write_fails left_behind json_load guess_type w req
  = Some (Ok200 (default (py "application/octet-stream")
                   (guess_type (path_str (ROOT ++ comps))))
            content, w).
Proof.
  intros Hne Hall Ht Hp Hr Hc Hf. unfold do_GET. rewrite Hr, Hc.
  unfold serve_static. rewrite Hp, static_rel by assumption.
  assert (El : resolve ROOT (join slash comps) = ROOT ++ comps).
  { unfold resolve. rewrite split_on_join; [|
      eapply Forall_impl; [exact Hall|]; intros c H;
      now apply plain_component_facts in H|assumption].
    destruct comps as [|c rest]; [contradiction|]. now apply resolve_plain. }
  rewrite El, path_str_prefix. cbn [negb].
  unfold regular_file. now rewrite below_path_app, Hf.
Qed.



End StaticClaims.

Lemma existing_file_is_served_witness :
  do_GET IGNORE_DIRS_server samples_root (fun _ _ => false) false (fun _ => [])
    load_empty (fun _ => None)
    (World (Folder [(py "kicks", Folder [(py "a.wav", File [7%N])])]) (fun _ => None))
    (Request (py "/kicks/a.wav?x=1") None)
  = Some (Ok200 (py "application/octet-stream") [7%N],
          World (Folder [(py "kicks", Folder [(py "a.wav", File [7%N])])])
            (fun _ => None)).
Proof.
  apply (existing_file_is_served IGNORE_DIRS_server samples_root (fun _ _ => false)
           false (fun _ => []) load_empty (fun _ => None)
           (World (Folder [(py "kicks", Folder [(py "a.wav", File [7%N])])])
              (fun _ => None))
           (Request (py "/kicks/a.wav?x=1") None)
           [py "kicks"; py "a.wav"] (py "?x=1") [7%N]).
  - discriminate.
  - repeat constructor.
  - right. left. now exists (py "x=1").
  - reflexivity.
  - reflexivity.
  - reflexivity.
  - reflexivity.
Defined.


(** ** HEAD requests, and what a request changes *)

Section HeadClaims.
Variable IGNORE_DIRS : list str.
Variable ROOT : list str.
Variable fails : list str -> str -> bool.
Variable write_fails : bool.
Variable left_behind : str -> list N.
Variable json_load : list N -> outcome json.
Variable guess_type : str -> option str.


(** Every GET request is answered, and only a request whose path begins
    with [/rebuild] changes anything: all others leave the tree as it is,
    and none touches what lies outside the root. *)
Theorem do_GET_always_answers (w : world) (req : request) :
  exists resp w',
    do_GET IGNORE_DIRS ROOT fails write_fails left_behind json_load guess_type w req
    = Some (resp, w') /\
    w_outside w' = w_outside w /\
    (startswith (py "/rebuild") (req_path req) = false -> w' = w).
Proof.
  unfold do_GET. destruct (startswith (py "/rebuild") (req_path req)).
  - unfold rebuild.
    destruct (rename_files_total IGNORE_DIRS fails (w_root w) []) as [[t1 r] ->].
    destruct r as [[]|e]; [|eexists _, _; repeat split; discriminate].
    destruct (generate_json IGNORE_DIRS write_fails left_behind localhost_url t1)
      as [t2 [[]|e]]; eexists _, _; repeat split; discriminate.
  - destruct (is_catalog_path (req_path req)); eexists _, _; repeat split.
Qed.
End HeadClaims.

(** ** A rebuild that succeeds *)

Lemma put_entry_keeps_folders (k : str) (c : list N) (es : list (str * node))
    (n : str) (sub : node) :
  (n, sub) ∈ es -> is_folder sub = true ->
  (forall es', find_entry k es <> Some (Folder es')) ->
  (n, sub) ∈ put_entry k (File c) es.
Proof.
  induction es as [|[n' x'] es IH]; intros Hin Hf Hk; [now apply elem_of_nil in Hin|].
  simpl in *. unfold str_eqb in *. destruct (decide (n' = k)) as [E|E].
  - rewrite (bool_decide_eq_true_2 _ E) in *.
    apply elem_of_cons in Hin as [Hin|Hin]; [|now right].
    injection Hin as Hn Hs. subst. destruct x' as [|es0]; [discriminate|].
    exfalso. now apply (Hk es0).
  - rewrite (bool_decide_eq_false_2 _ E) in *.
    apply elem_of_cons in Hin as [Hin|Hin]; [rewrite Hin; left|right].
    now apply IH.
Qed.

Lemma reach_folder_start (t : node) (p : list str) (es : list (str * node)) :
  reach t p (Folder es) -> is_folder t = true.
Proof. inversion 1; reflexivity. Qed.

Lemma reach_after_put (t : node) (k : str) (c : list N) (path : list str)
    (es : list (str * node)) :
  reach t path (Folder es) -> path <> [] ->
  (forall es', find_entry k (entries_of t) <> Some (Folder es')) ->
  reach (Folder (put_entry k (File c) (entries_of t))) path (Folder es).
Proof.
  intros Hr Hne Hk. inversion Hr as [|es0 n sub x p Hin Hsub]; subst;
    [contradiction|].
  apply reach_down with sub; [|assumption]. simpl in Hk.
  apply put_entry_keeps_folders; try assumption.
  now apply (reach_folder_start sub p es).
Qed.

Section RebuildClaims.
Variable IGNORE_DIRS : list str.
Variable ROOT : list str.
Variable fails : list str -> str -> bool.
Variable write_fails : bool.
Variable left_behind : str -> list N.
Variable json_load : list N -> outcome json.
Variable guess_type : str -> option str.

(** When a rebuild request is answered 200, the renamer has walked the
    whole tree, [strudel.json] holds the encoded catalog of the renamed
    tree, and every entry of that catalog is the path of a qualifying file
    that is in the tree the request leaves behind. *)
Theorem rebuild_lists_existing_files (w w' : world) (req : request)
    (ctype : str) (body : list N) :
  startswith (py "/rebuild") (req_path req) = true ->
  do_GET IGNORE_DIRS ROOT fails write_fails left_behind json_load guess_type w req
  = Some (Ok200 ctype body, w') ->
  exists t1 data content,
    rename_files IGNORE_DIRS fails [] (w_root w) = Some (t1, Done tt) /\
    catalog IGNORE_DIRS localhost_url t1 = Done data /\
    utf8_encode (dumps (JObject data)) = Some content /\
    find_entry JSON_NAME (entries_of (w_root w')) = Some (File content) /\
    body = rebuild_done /\
    forall key items e,
      dict_get key data = Some (JArray items) -> e ∈ items ->
      exists path es f,
        e = JString (file_entry path f) /\
        reach (w_root w') path (Folder es) /\
        f ∈ file_names es /\ allowed f = true.
Proof.
  intros Hp. unfold do_GET, rebuild. rewrite Hp.
  destruct (rename_files IGNORE_DIRS fails [] (w_root w)) as [[t1 [[]|e]]|];
    try discriminate.
  unfold generate_json, write_text.
  destruct (catalog IGNORE_DIRS localhost_url t1) as [data|e] eqn:Ec; [|discriminate].
  assert (Hk : (forall es', find_entry JSON_NAME (entries_of t1) <> Some (Folder es'))
               \/ exists es', find_entry JSON_NAME (entries_of t1) = Some (Folder es')).
  { destruct (find_entry JSON_NAME (entries_of t1)) as [[c|es']|];
      [left; discriminate|right; eauto|left; discriminate]. }
  destruct Hk as [Hk|[es' Hk]]; [|rewrite Hk; discriminate].
  assert (Hw : forall (A : Type) (a b : A),
    match find_entry JSON_NAME (entries_of t1) with
    | Some (Folder _) => a
    | _ => b
    end = b).
  { intros A a b. destruct (find_entry JSON_NAME (entries_of t1)) as [[c|es']|];
      try reflexivity. exfalso. now apply (Hk es'). }
  rewrite Hw. destruct write_fails; [discriminate|].
  destruct (utf8_encode (dumps (JObject data))) as [content|] eqn:Eu; [|discriminate].
  intros [= <- <- <-]. exists t1, data, content. cbn [w_root entries_of].
  split; [reflexivity|]. split; [exact Ec|]. split; [exact Eu|].
  split; [apply find_put_eq|]. split; [reflexivity|].
  intros key items e Hget He.
  pose proof (catalog_done_no_base _ _ _ _ Ec) as Hb.
  apply no_base_groupb_parts in Hb.
  destruct (catalog_groups IGNORE_DIRS localhost_url t1 Hb) as [data0 [E0 [Hbase Hg]]].
  assert (data0 = data) by congruence. subst data0.
  assert (Hne : key <> base_key) by (intros ->; congruence).
  rewrite (Hg key Hne) in Hget. unfold extended in Hget.
  destruct (concat _) as [|s l] eqn:Ecat; [discriminate|]. injection Hget as <-.
  change (JString s :: map JString l) with (map JString (s :: l)) in He.
  apply list_elem_of_fmap in He as [s' [-> Hs']]. rewrite <- Ecat in Hs'.
  apply in_group in Hs' as [path [es [f [-> [Hr [El [_ [Hf Ha]]]]]]]].
  exists path, es, f. repeat split; try assumption.
  apply reach_after_put; try assumption. intros ->. discriminate.
Qed.
End RebuildClaims.

Lemma rebuild_lists_existing_files_witness :
  exists t1 data content,
    rename_files IGNORE_DIRS_server (fun _ _ => false) [] two_renames
    = Some (t1, Done tt) /\
    catalog IGNORE_DIRS_server localhost_url t1 = Done data /\
    utf8_encode (dumps (JObject data)) = Some content.
Proof.
  destruct (rebuild_lists_existing_files IGNORE_DIRS_server samples_root
              (fun _ _ => false) false (fun _ => []) load_empty (fun _ => None)
              (World two_renames (fun _ => None))
              (World (Folder [(py "a-b.wav", File [1%N]); (py "c-d.wav", File [2%N]);
                              (JSON_NAME,
                               File (py "{" ++ [quote] ++ py "_base" ++ [quote]
                                     ++ py ":" ++ [quote] ++ localhost_url
                                     ++ [quote] ++ py "}"))])
                 (fun _ => None))
              (Request (py "/rebuild") None) json_ctype rebuild_done)
    as [t1 [data [content [H1 [H2 [H3 _]]]]]].
  - reflexivity.
  - vm_compute. reflexivity.
  - now exists t1, data, content.
Defined.

(** ** Streaming a file *)

Lemma stream_spec (size : nat) (write_ok : nat -> bool) :
  0 < size ->
  forall fuel k (content : list N), length content < fuel ->
    exists chunks,
      stream size fuel write_ok k content = Some chunks /\
      (exists rest, content = concat chunks ++ rest) /\
      Forall (fun c : list N => 0 < length c <= size) chunks /\
      ((forall j, write_ok j = true) -> concat chunks = content).
Proof.
  intros Hsize. induction fuel as [|fuel IH]; intros k content Hlen; [lia|].
  cbn [stream]. destruct (take size content) as [|x chunk] eqn:Et.
  - exists []. split; [reflexivity|]. split; [now exists content|].
    split; [constructor|]. intros _. simpl.
    destruct content as [|y content]; [reflexivity|].
    destruct size; [lia|discriminate].
  - destruct (write_ok k) eqn:Ew.
    + assert (Hd : length (drop size content) < fuel).
      { rewrite length_drop.
        destruct content; [rewrite take_nil in Et; discriminate|simpl in *; lia]. }
      destruct (IH (S k) (drop size content) Hd) as [chunks [-> [[rest Er] [Hall Hc]]]].
      exists ((x :: chunk) :: chunks). split; [reflexivity|]. split; [|split].
      * exists rest. cbn [concat]. rewrite <- app_assoc, <- Er, <- Et.
        symmetry. apply take_drop.
      * constructor; [|assumption]. rewrite <- Et, length_take. split; [|lia].
        destruct content; [rewrite take_nil in Et; discriminate|]. simpl. lia.
      * intros Hok. cbn [concat]. rewrite (Hc Hok), <- Et. apply take_drop.
    + exists []. split; [reflexivity|]. split; [now exists content|].
      split; [constructor|]. intros Hok. rewrite Hok in Ew. discriminate.
Qed.

(** The loop that copies a file to the client ends; what it has written is
    a beginning of the file, in chunks of at least one and at most
    [CHUNK] (64 KiB) bytes, and it is the whole file when no write fails. *)
Theorem file_is_streamed_in_chunks (write_ok : nat -> bool) (content : list N) :
  exists chunks,
    stream CHUNK (S (length content)) write_ok 0 content = Some chunks /\
    (exists rest, content = concat chunks ++ rest) /\
    Forall (fun c : list N => 0 < length c <= CHUNK) chunks /\
    ((forall j, write_ok j = true) -> concat chunks = content).
Proof.
  apply stream_spec; [unfold CHUNK|]; lia.
Qed.

(** ** Names handed to [with_name] *)

(** [Path.with_name] raises [ValueError] on a name that is empty, is
    ["."] or holds a ['/'].  The names the renamer hands to it are never
    of that kind, so the renamer cannot fail there. *)
Theorem destination_names_are_valid (d : gset str) (fname dst : str) :
  destination d fname = Some (Some dst) ->
  dst <> [] /\ (slash ∉ dst) /\ dst <> [dot].
Proof.
  intros H. apply destination_policy in H as [Ha [_ [_ H]]].
  destruct (allowed_split fname Ha) as [a [b [_ [Ea [Eb [_ [Hb _]]]]]]].
  assert (Ht : safe_audio_name fname = sanitize_stem a ++ dot :: b)
    by (unfold safe_audio_name; now rewrite Ea, Eb).
  assert (Hsl : Forall (fun y => y <> slash) (safe_audio_name fname)).
  { apply Forall_forall. intros y Hy ->. revert Hy.
    rewrite safe_audio_name_name. apply sanitize_name_no_slash, path_name_facts. }
  destruct H as [[_ ->]|[_ [i [_ [-> _]]]]].
  - split; [|split].
    + rewrite Ht. now destruct (sanitize_stem a).
    + intros Hin. rewrite Forall_forall in Hsl. now apply (Hsl _ Hin).
    + rewrite Ht. destruct (sanitize_stem a) as [|x [|y s]]; try discriminate.
      destruct b; [contradiction|discriminate].
  - split; [|split].
    + unfold candidate. now destruct (path_stem (safe_audio_name fname)).
    + assert (Hc : Forall (fun y => y <> slash)
                     (candidate (path_stem (safe_audio_name fname))
                        (path_suffix (safe_audio_name fname)) i)).
      { apply candidate_keeps; [discriminate| |assumption].
        intros y Hy ->. unfold slash in Hy. lia. }
      intros Hin. rewrite Forall_forall in Hc. now apply (Hc _ Hin).
    + intros E.
      assert (Hd : dash ∈ candidate (path_stem (safe_audio_name fname))
                          (path_suffix (safe_audio_name fname)) i).
      { unfold candidate. apply elem_of_app. right. left. }
      rewrite E in Hd. apply list_elem_of_singleton in Hd. discriminate.
Qed.

Lemma destination_names_are_valid_witness :
  py "snare-A-1.wav" <> [] /\ (slash ∉ py "snare-A-1.wav")
  /\ py "snare-A-1.wav" <> [dot].
Proof.
  apply (destination_names_are_valid {[py "snare A.wav"; py "snare-A.wav"]}
           (py "snare A.wav")).
  vm_compute. reflexivity.
Defined.

(** ** Serving what the builder wrote *)

Lemma catalog_head (IGNORE_DIRS : list str) (base_url : str) (root : node)
    (data : list (str * json)) :
  catalog IGNORE_DIRS base_url root = Done data ->
  exists rest, data = (base_key, JString base_url) :: rest.
Proof.
  intros E. unfold catalog in E.
  destruct (visit_all_keeps_head _ _ _ _ _ [] E eq_refl) as [rest [-> _]];
    [apply NoDup_singleton|eauto].
Qed.

Section ServeBuilt.
Variable IGNORE_DIRS : list str.
Variable ROOT : list str.
Variable fails : list str -> str -> bool.
Variable write_fails : bool.
Variable left_behind : str -> list N.
Variable json_load : list N -> outcome json.
Variable guess_type : str -> option str.

(** When the catalog file loads as the dictionary the builder made, a
    catalog request is answered with that dictionary, its first member
    [_base] rewritten to the URL of the request's host and every group
    after it as it was and in the same order. *)
Theorem built_catalog_is_served (w : world) (req : request) (root : node)
    (base_url : str) (data : list (str * json)) (content body : list N) :
  catalog IGNORE_DIRS base_url root = Done data ->
  is_catalog_path (req_path req) = true ->
  find_entry JSON_NAME (entries_of (w_root w)) = Some (File content) ->
  json_load content = Done (JObject data) ->
  utf8_encode
    (dumps (JObject ((base_key, JString (py "http://" ++ host_of req ++ py "/"))
                     :: tail data)))
  = Some body ->
  do_GET IGNORE_DIRS ROOT fails write_fails left_behind json_load guess_type w req
  = Some (Ok200 json_ctype body, w).
Proof.
  intros Ec Hp Hf Hl Hb. rewrite do_GET_catalog by assumption.
  unfold serve_strudel_json. rewrite Hf, Hl.
  destruct (catalog_head _ _ _ _ Ec) as [rest ->]. cbn [tail] in Hb.
  cbn [dict_set]. unfold str_eqb.
  rewrite (bool_decide_eq_true_2 (base_key = base_key) eq_refl).
  now rewrite Hb.
Qed.
End ServeBuilt.

Lemma built_catalog_is_served_witness :
  exists body,
    do_GET IGNORE_DIRS_server samples_root (fun _ _ => false) false (fun _ => [])
      (fun _ => Done (JObject [(base_key, JString localhost_url);
                               (py "kicks",
                                JArray (map JString [py "/kicks/z.wav";
                                                     py "/kicks/kicks/a.wav"]))]))
      (fun _ => None) empty_catalog_world
      (Request (py "/") (Some (py "192.168.1.5:5432")))
    = Some (Ok200 json_ctype body, empty_catalog_world).
Proof.
  eexists.
  apply (built_catalog_is_served IGNORE_DIRS_server samples_root (fun _ _ => false)
           false (fun _ => [])
           (fun _ => Done (JObject [(base_key, JString localhost_url);
                                    (py "kicks",
                                     JArray (map JString [py "/kicks/z.wav";
                                                          py "/kicks/kicks/a.wav"]))]))
           (fun _ => None) empty_catalog_world
           (Request (py "/") (Some (py "192.168.1.5:5432")))
           nested_kicks localhost_url
           [(base_key, JString localhost_url);
            (py "kicks",
             JArray (map JString [py "/kicks/z.wav"; py "/kicks/kicks/a.wav"]))]
           (py "{}")).
  - vm_compute. reflexivity.
  - reflexivity.
  - reflexivity.
  - reflexivity.
  - vm_compute. reflexivity.
Defined.

(** ** The two scripts *)





